(** * Data preparation of the CBOW notebook (w2v_hw.ipynb)

    A shallow embedding of the notebook's data-preparation cells:
    vocabulary selection (cell 6), text filtering (cell 8), the helpers
    [make_context_vector] and [data_batcher] and the
    dataset-building loop (cell 14), followed by the evaluation helpers
    [word2vec] and [closest_n_words], whose numerical parts are parameters.

    The notebook fixes the vocabulary limit to 1000 and [CONTEXT_SIZE] to 2;
    both are parameters here and the notebook's values are recovered by
    [notebook_vocab] and [notebook_dataset]. *)

From stdpp Require Import base list strings gmap sorting.
From Stdlib Require Import ZArith Lia.

Local Open Scope Z_scope.

(** ** The part of the Python runtime the cells rely on *)

Module Py.

(** An exception is identified by the name of its class. *)
Definition exn : Type := string.

Definition IndexError : exn := "IndexError"%string.
Definition KeyError : exn := "KeyError"%string.

(** Outcome of evaluating an expression: a value, or a raised exception. *)
Inductive result (A : Type) : Type :=
| Ok (a : A)
| Raise (e : exn).
Global Arguments Ok {A} a.
Global Arguments Raise {A} e.

Global Instance result_ret : MRet result := λ A, Ok.
Global Instance result_bind : MBind result := λ A B f m,
  match m with
  | Ok a => f a
  | Raise e => Raise e
  end.
Global Instance result_fmap : FMap result := λ A B f m,
  match m with
  | Ok a => Ok (f a)
  | Raise e => Raise e
  end.

(** [for x in xs: acc = f(acc, x)], stopping at the first exception. *)
Fixpoint foldM {A S : Type} (f : S → A → result S) (s : S) (xs : list A)
  : result S :=
  match xs with
  | [] => Ok s
  | x :: xs' => s' ← f s x; foldM f s' xs'
  end.

(** [l[k]] on a list: negative positions count from the end. *)
Definition index {A : Type} (l : list A) (k : Z) : result A :=
  let n := Z.of_nat (length l) in
  let p := if k <? 0 then k + n else k in
  if (0 <=? p) && (p <? n) then
    match l !! Z.to_nat p with
    | Some x => Ok x
    | None => Raise IndexError
    end
  else Raise IndexError.

(** [range(a, b)] *)
Definition range (a b : Z) : list Z := seqZ a (b - a).

(** Clamping of a slice bound against a sequence of length [n]. *)
Definition clamp (n k : Z) : Z :=
  if k <? 0 then Z.max 0 (k + n) else Z.min k n.

(** [l[a:b]] *)
Definition slice {A : Type} (l : list A) (a b : Z) : list A :=
  let n := Z.of_nat (length l) in
  let lo := clamp n a in
  let hi := clamp n b in
  take (Z.to_nat (hi - lo)) (drop (Z.to_nat lo) l).

(** [d[k]] on a dict. *)
Definition getitem (d : gmap string nat) (k : string) : result nat :=
  match d !! k with
  | Some v => Ok v
  | None => Raise KeyError
  end.

(** [enumerate(l)] *)
Definition enumerate {A : Type} (l : list A) : list (nat * A) :=
  imap (λ i x, (i, x)) l.

(** Iteration order of the hashed containers.  The order in which a [set]
    of strings, or the items of a [dict] with string keys, are visited
    depends on the string hash, which CPython salts per interpreter process
    (a [dict] keeps its insertion order only from Python 3.7 on; the notebook
    records Python 3.5).  All the language guarantees is that each distinct
    element, or each item, is visited once.  [set_iter l] is the order of
    the set built from [l]; [dict_iter c] is the order of the dict whose
    items were inserted in the order [c]. *)
Class HashOrder := {
  set_iter : list string → list string;
  set_iter_perm : ∀ l, set_iter l ≡ₚ remove_dups l;
  dict_iter : list (string * nat) → list (string * nat);
  dict_iter_perm : ∀ c, dict_iter c ≡ₚ c
}.

(** Two admissible orders: first-insertion order, and its reverse. *)
Program Definition insertion_order : HashOrder :=
  {| set_iter := remove_dups; dict_iter := λ c, c |}.
Next Obligation. done. Qed.
Next Obligation. done. Qed.

Program Definition reversed_order : HashOrder :=
  {| set_iter := λ l, reverse (remove_dups l); dict_iter := reverse |}.
Next Obligation. intros l. apply reverse_Permutation. Qed.
Next Obligation. intros c. apply reverse_Permutation. Qed.

End Py.

Import Py.

(** ** Cell 6: the vocabulary *)

(** [Counter(raw_text)]: a dict from word to number of occurrences; its
    items are listed here in the order in which they were inserted, that is
    the order of the first occurrences. *)
Fixpoint count_up (w : string) (c : list (string * nat)) : list (string * nat) :=
  match c with
  | [] => [(w, 1%nat)]
  | (k, n) :: c' =>
      if decide (k = w) then (k, S n) :: c' else (k, n) :: count_up w c'
  end.

Definition Counter (raw_text : list string) : list (string * nat) :=
  foldl (λ c w, count_up w c) [] raw_text.

(** [sorted(items, key=itemgetter(1), reverse=True)]: decreasing counts,
    equal counts kept in their original order. *)
Fixpoint insert_desc (x : string * nat) (s : list (string * nat))
  : list (string * nat) :=
  match s with
  | [] => [x]
  | y :: s' =>
      if decide (y.2 ≤ x.2)%nat then x :: y :: s' else y :: insert_desc x s'
  end.

Definition sorted_desc (items : list (string * nat)) : list (string * nat) :=
  foldr insert_desc [] items.

(** [c.most_common(n)], that is [heapq.nlargest(n, c.items(), key=...)]:
    the first [n] items of the sorted list, none when [n <= 0]. *)
Definition most_common (c : list (string * nat)) (n : Z) : list (string * nat) :=
  take (Z.to_nat n) (sorted_desc c).

(** [list(zip( *pairs))[0]]: the transposition of a list of pairs has two
    rows when there is at least one pair and none otherwise, so position 0
    holds the first components, or does not exist. *)
Definition zip_star_0 (pairs : list (string * nat)) : result (list string) :=
  match pairs with
  | [] => Raise IndexError
  | _ :: _ => Ok (pairs.*1)
  end.

(** [raw_text_count = Counter(raw_text)], a dict seen through the order in
    which its items are iterated. *)
Definition raw_text_count `{HashOrder} (raw_text : list string)
  : list (string * nat) :=
  dict_iter (Counter raw_text).

(** [vocab = set(list(zip( *raw_text_count.most_common(K)))[0])], a set seen
    through its iteration order. *)
Definition vocab `{HashOrder} (raw_text : list string) (K : Z)
  : result (list string) :=
  words ← zip_star_0 (most_common (raw_text_count raw_text) K);
  mret (set_iter words).

Definition vocab_size (vocab : list string) : nat := length vocab.

Definition notebook_vocab `{HashOrder} (raw_text : list string) :=
  vocab raw_text 1000.

(** ** Cell 8: filtering the text *)

(** [text = [r for r in raw_text if r in vocab]] *)
Definition text (raw_text vocab : list string) : list string :=
  filter (λ r, r ∈ vocab) raw_text.

(** ** The helper [make_context_vector] *)

Definition make_context_vector (context : list string)
    (word_to_ix : gmap string nat) : result (list nat) :=
  mapM (getitem word_to_ix) context.

(** ** Cell 14: the dataset *)

Definition CONTEXT_SIZE : Z := 2.

(** [word_to_ix = {word: i for i, word in enumerate(vocab)}] *)
Definition word_to_ix (vocab : list string) : gmap string nat :=
  foldl (λ d iw, <[iw.2 := iw.1]> d) ∅ (enumerate vocab).

(** [range(-W, W+1)] without [0]. *)
Definition offsets (W : Z) : list Z :=
  filter (λ j, j ≠ 0) (range (- W) (W + 1)).

(** One turn of the loop, from the lists [X] and [Y] built so far. *)
Definition dataset_step (text : list string) (word_to_ix : gmap string nat)
    (W : Z) (XY : list (list nat) * list nat) (i : Z)
  : result (list (list nat) * list nat) :=
  context ← mapM (λ j, index text (i + j)) (offsets W);
  target ← index text i;
  row ← make_context_vector context word_to_ix;
  y ← getitem word_to_ix target;
  mret (XY.1 ++ [row], XY.2 ++ [y]).

(** The whole loop, started with [X = []] and [Y = []]. *)
Definition dataset (text : list string) (word_to_ix : gmap string nat) (W : Z)
  : result (list (list nat) * list nat) :=
  foldM (dataset_step text word_to_ix W) ([], [])
        (range W (Z.of_nat (length text) - W)).

Definition notebook_dataset (text : list string) (word_to_ix : gmap string nat) :=
  dataset text word_to_ix CONTEXT_SIZE.

(** Cells 6, 8 and 14 in sequence. *)
Definition pipeline `{HashOrder} (raw_text : list string) (K W : Z)
  : result (list (list nat) * list nat) :=
  v ← vocab raw_text K;
  dataset (text raw_text v) (word_to_ix v) W.

(** ** The helper [data_batcher] *)

(** [np.arange(n)] *)
Definition arange (n : Z) : list Z := range 0 n.

(** [A[draw]] for an array of positions [draw]: the rows of [A] at these
    positions, in the order of [draw]. *)
Definition np_take {A : Type} (rows : list A) (draw : list Z)
  : result (list A) :=
  mapM (index rows) draw.

(** What a generator does when asked for its next value. *)
Inductive gen_step : Type :=
| Yield (Xb : list (list nat)) (Yb : list nat) (count' : Z)
| StopIteration
| Throw (e : exn).

(** One turn of the [while] loop of [data_batcher]; the generator's only
    state between two yields is [count]. *)
Definition data_batcher_next (X : list (list nat)) (Y : list nat)
    (batch_size : Z) (count : Z) : gen_step :=
  let shape0 := Z.of_nat (length X) in
  let indices := arange shape0 in
  if count <? shape0 then
    let draw := slice indices count (Z.min (count + batch_size) shape0) in
    match np_take X draw with
    | Raise e => Throw e
    | Ok Xb =>
        match np_take Y draw with
        | Raise e => Throw e
        | Ok Yb => Yield Xb Yb (count + batch_size)
        end
    end
  else StopIteration.

(** How the consumption of a generator ends: it is exhausted, it raised, or
    the consumer stopped asking. *)
Inductive gen_end : Type :=
| Exhausted
| Raised (e : exn)
| Suspended.

(** The batches obtained by asking [fuel] times, from the state [count]. *)
Fixpoint data_batcher_from (fuel : nat) (X : list (list nat)) (Y : list nat)
    (batch_size : Z) (count : Z) : list (list (list nat) * list nat) * gen_end :=
  match fuel with
  | O => ([], Suspended)
  | S fuel' =>
      match data_batcher_next X Y batch_size count with
      | StopIteration => ([], Exhausted)
      | Throw e => ([], Raised e)
      | Yield Xb Yb count' =>
          let r := data_batcher_from fuel' X Y batch_size count' in
          ((Xb, Yb) :: r.1, r.2)
      end
  end.

(** [data_batcher(X, Y, batch_size)], with [count = 0] at the start. *)
Definition data_batcher (fuel : nat) (X : list (list nat)) (Y : list nat)
    (batch_size : Z) : list (list (list nat) * list nat) * gen_end :=
  data_batcher_from fuel X Y batch_size 0.

(** ** The evaluation helpers: [word2vec] and [closest_n_words]

    A model is seen through the two fields these helpers read: the rows of
    [self.emb.weight] and the dict [self.word_to_ix].  The vectors, the
    scores, the cosine module and the comparison of two scores belong to the
    numerical library and are parameters. *)

Section embedding.
Context {V S : Type}.
Variable cos : V → V → S.
Variable leb : S → S → bool.

(** [self.emb.weight[self.word_to_ix[word], :]] *)
Definition word2vec (weight : list V) (word_to_ix : gmap string nat)
    (word : string) : result V :=
  i ← getitem word_to_ix word;
  index weight (Z.of_nat i).

(** [sorted(scores, key=lambda score: score[0]..., reverse=True)]:
    decreasing scores, equal scores kept in their original order;
    [leb a b] is the comparison [a <= b] of two scores. *)
Fixpoint insert_score (x : S * string) (s : list (S * string))
  : list (S * string) :=
  match s with
  | [] => [x]
  | y :: s' => if leb y.1 x.1 then x :: y :: s' else y :: insert_score x s'
  end.

Definition sorted_scores (scores : list (S * string)) : list (S * string) :=
  foldr insert_score [] scores.

(** [list(zip( *pairs))[1]]: the second components, when there is a pair. *)
Definition zip_star_1 (pairs : list (S * string)) : result (list string) :=
  match pairs with
  | [] => Raise IndexError
  | _ :: _ => Ok (pairs.*2)
  end.

(** One turn of the loop over the vocabulary. *)
Definition closest_step (weight : list V) (word_to_ix : gmap string nat)
    (word : string) (word_vec : V) (scores : list (S * string)) (v : string)
  : result (list (S * string)) :=
  if decide (v = word) then Ok scores
  else
    vec ← word2vec weight word_to_ix v;
    mret (scores ++ [(cos vec word_vec, v)]).

Definition closest_n_words (weight : list V) (word_to_ix : gmap string nat)
    (vocab : list string) (word : string) (n : Z) : result (list string) :=
  word_vec ← word2vec weight word_to_ix word;
  scores ← foldM (closest_step weight word_to_ix word word_vec) [] vocab;
  zip_star_1 (slice (sorted_scores scores) 0 n).

(** Score of a word against the query word, when both have a vector. *)
Definition score_of (weight : list V) (word_to_ix : gmap string nat)
    (word v : string) : option S :=
  match word2vec weight word_to_ix v, word2vec weight word_to_ix word with
  | Ok a, Ok b => Some (cos a b)
  | _, _ => None
  end.
End embedding.

(** ** Vocabulary of the statements *)

(** Number of distinct words of a text. *)
Definition distinct_tokens (raw_text : list string) : nat :=
  length (remove_dups raw_text).

(** The dict [d] maps the words of [v] one-to-one onto the ids below the
    size of [v]. *)
Definition ids_bijective (v : list string) (d : gmap string nat) : Prop :=
  (∀ w, w ∈ v → ∃ i, d !! w = Some i ∧ (i < vocab_size v)%nat) ∧
  (∀ w1 w2 i, w1 ∈ v → w2 ∈ v → d !! w1 = Some i → d !! w2 = Some i → w1 = w2) ∧
  (∀ i, (i < vocab_size v)%nat → ∃ w, w ∈ v ∧ d !! w = Some i).

(** [v] is a vocabulary of the requested size for [raw_text]: distinct words
    of the text, [min(K, number of distinct words)] of them, with ids that
    form a bijection onto the ids below its size. *)
Definition vocab_spec (raw_text : list string) (K : Z) (v : list string) : Prop :=
  NoDup v ∧
  (∀ w, w ∈ v → w ∈ raw_text) ∧
  vocab_size v = (Z.to_nat K `min` distinct_tokens raw_text)%nat ∧
  ids_bijective v (word_to_ix v).

(** Id of the word at position [p] of a text, when there is one. *)
Definition token_id (text : list string) (d : gmap string nat) (p : nat)
  : option nat :=
  w ← text !! p; d !! w.

(** [(row, y)] is the example centred at position [i]: [row] holds the ids of
    the [W] words before [i], then of the [W] words after [i], from left to
    right, and [y] is the id of the word at [i]. *)
Definition example_at (text : list string) (d : gmap string nat) (W i : nat)
    (row : list nat) (y : nat) : Prop :=
  length row = (2 * W)%nat ∧
  (∀ k, (k < W)%nat →
     row !! k = token_id text d (i - W + k) ∧
     row !! (W + k)%nat = token_id text d (i + 1 + k)) ∧
  Some y = token_id text d i.

(** The [k]-th slice of [B] consecutive rows of [X] and of [Y]. *)
Definition batch_at (X : list (list nat)) (Y : list nat) (B k : nat)
  : list (list nat) * list nat :=
  (take B (drop (k * B) X), take B (drop (k * B) Y)).

(** Total readings of the dict and of the text, used to name what the loop
    appends once every lookup is known to succeed. *)
Definition word_id (d : gmap string nat) (w : string) : nat :=
  default 0%nat (d !! w).

Definition window_row (text : list string) (d : gmap string nat) (W i : Z)
  : list nat :=
  word_id d <$> (take (Z.to_nat W) (drop (Z.to_nat (i - W)) text)
                 ++ take (Z.to_nat W) (drop (Z.to_nat (i + 1)) text)).

Definition window_target (text : list string) (d : gmap string nat) (i : Z)
  : nat :=
  word_id d (default ""%string (text !! Z.to_nat i)).

(** Number of occurrences of a word in a text. *)
Definition occurrences (w : string) (l : list string) : nat :=
  length (filter (w =.) l).

(** [c[w]] on a [Counter]: the stored count, [0] for a missing key. *)
Fixpoint counter_get (c : list (string * nat)) (w : string) : nat :=
  match c with
  | [] => 0%nat
  | (k, n) :: c' => if decide (k = w) then n else counter_get c' w
  end.

(** The words around position [i]: the [W] words before it, then the [W]
    words after it. *)
Definition window_words (text : list string) (W i : Z) : list string :=
  take (Z.to_nat W) (drop (Z.to_nat (i - W)) text)
  ++ take (Z.to_nat W) (drop (Z.to_nat (i + 1)) text).

(** ** Concrete data *)

Definition abcde : list string := ["a"; "b"; "c"; "d"; "e"]%string.

(** The dict [{'a': 0, 'b': 1, 'c': 2, 'd': 3, 'e': 4}]. *)
Definition abcde_ids : gmap string nat :=
  <["e"%string := 4%nat]> (<["d"%string := 3%nat]> (<["c"%string := 2%nat]>
    (<["b"%string := 1%nat]> (<["a"%string := 0%nat]> ∅)))).

Definition abcd : list string := ["a"; "b"; "c"; "d"]%string.

Definition aba : list string := ["a"; "b"; "a"]%string.

Definition abacab : list string := ["a"; "b"; "a"; "c"; "a"; "b"]%string.

Definition abbcaca : list string := ["a"; "b"; "b"; "c"; "a"; "c"; "a"]%string.

Definition axcaycz : list string := ["a"; "x"; "c"; "a"; "y"; "c"; "z"]%string.

(** Membership of the words of a literal text in a literal dict. *)
Ltac known_words :=
  let w := fresh "w" in
  let Hw := fresh "Hw" in
  intros w Hw;
  repeat (apply elem_of_cons in Hw as [->|Hw]; [vm_compute; by eexists|]);
  by apply elem_of_nil in Hw.

(** * Properties *)

(** ** Evaluation in the [result] monad *)

Section result_lemmas.
Context {A B : Type}.
Implicit Types (f : A → result B) (l : list A) (k : list B).

Lemma mapM_Ok f l k :
  Forall2 (λ x y, f x = Ok y) l k → mapM f l = Ok k.
Proof.
  induction 1 as [|x y l k Hxy _ IH]; [done|].
  cbn. rewrite Hxy. cbn. by rewrite IH.
Qed.

Lemma mapM_Ok_inv f l k :
  mapM f l = Ok k → Forall2 (λ x y, f x = Ok y) l k.
Proof.
  revert k. induction l as [|x l IH]; intros k; cbn.
  - intros [= <-]. constructor.
  - destruct (f x) as [y|e] eqn:Hx; cbn; [|done].
    destruct (mapM f l) as [k'|e] eqn:Hl; cbn; [|done].
    intros [= <-]. constructor; auto.
Qed.

Lemma mapM_Ok_fmap (g : A → B) f l :
  (∀ x, x ∈ l → f x = Ok (g x)) → mapM f l = Ok (g <$> l).
Proof.
  intros Hf. apply mapM_Ok. induction l as [|x l IH]; cbn; constructor.
  - apply Hf. left.
  - apply IH. intros y Hy. apply Hf. by right.
Qed.

Lemma mapM_Raise f l e :
  mapM f l = Raise e → ∃ x, x ∈ l ∧ f x = Raise e.
Proof.
  induction l as [|x l IH]; cbn; [done|].
  destruct (f x) as [y|e'] eqn:Hx; cbn.
  - destruct (mapM f l) as [k'|e'] eqn:Hl; cbn; [done|].
    intros [= ->]. destruct IH as (z & Hz & Hfz); [done|].
    exists z. split; [by right|done].
  - intros [= ->]. exists x. split; [left|done].
Qed.
End result_lemmas.

(** In range, [index] is the list lookup. *)
Lemma index_lookup {A : Type} (l : list A) (k : Z) (x : A) :
  0 ≤ k → l !! Z.to_nat k = Some x → index l k = Ok x.
Proof.
  intros Hk Hx. unfold index.
  pose proof (lookup_lt_Some _ _ _ Hx) as Hlt.
  destruct (Z.ltb_spec k 0); [lia|].
  destruct (Z.leb_spec 0 k); [|lia].
  destruct (Z.ltb_spec k (Z.of_nat (length l))); [|lia].
  cbn. by rewrite Hx.
Qed.

(** [index] only ever returns elements of the list. *)
Lemma index_Ok_elem_of {A : Type} (l : list A) (k : Z) (x : A) :
  index l k = Ok x → x ∈ l.
Proof.
  unfold index. destruct (_ && _); [|done].
  destruct (l !! _) as [y|] eqn:Hy; [|done].
  intros [= <-]. by eapply list_elem_of_lookup_2.
Qed.

Lemma index_Raise {A : Type} (l : list A) (k : Z) (e : exn) :
  index l k = Raise e → e = IndexError.
Proof.
  unfold index. destruct (_ && _); [|congruence].
  destruct (l !! _); [done|congruence].
Qed.

(** ** Cell 8 *)

(** C4. The filtered text is a subsequence of the raw text in the original
    order, each of its words belongs to the vocabulary, and it keeps every
    occurrence of every vocabulary word. *)
Theorem text_filter_spec (raw_text vocab : list string) :
  text raw_text vocab `sublist_of` raw_text ∧
  Forall (λ r, r ∈ vocab) (text raw_text vocab) ∧
  ∀ r, r ∈ vocab →
    length (filter (r =.) (text raw_text vocab)) = length (filter (r =.) raw_text).
Proof.
  unfold text. split; [apply sublist_filter|]. split.
  - apply Forall_forall. intros r Hr. by apply list_elem_of_filter in Hr as [? _].
  - intros r Hr. f_equal. rewrite list_filter_filter.
    apply list_filter_iff. intros x. split; [tauto|]. intros ->. done.
Qed.

(** ** Cell 6 *)

Section counter.
Implicit Types (c : list (string * nat)) (l : list string) (w : string).

Lemma count_up_keys w c :
  (count_up w c).*1 = if decide (w ∈ c.*1) then c.*1 else c.*1 ++ [w].
Proof.
  induction c as [|[k n] c IH]; cbn; [done|].
  destruct (decide (k = w)) as [->|Hne]; cbn.
  - rewrite decide_True; [done|left].
  - rewrite IH. destruct (decide (w ∈ c.*1)) as [Hin|Hnin].
    + rewrite decide_True; [done|by right].
    + rewrite decide_False; [done|]. rewrite elem_of_cons.
      intros [?|?]; congruence.
Qed.

Lemma count_up_NoDup w c : NoDup c.*1 → NoDup (count_up w c).*1.
Proof.
  intros Hc. rewrite count_up_keys. case_decide; [done|].
  apply NoDup_app. split_and!; [done| |apply NoDup_singleton].
  intros x Hx ->%list_elem_of_singleton. done.
Qed.

Lemma count_up_elem_of w c x : x ∈ (count_up w c).*1 ↔ x = w ∨ x ∈ c.*1.
Proof.
  rewrite count_up_keys. case_decide.
  - split; [tauto|]. intros [->|?]; done.
  - rewrite elem_of_app, list_elem_of_singleton. tauto.
Qed.

Lemma Counter_from_spec l c :
  NoDup c.*1 →
  NoDup (foldl (λ c w, count_up w c) c l).*1 ∧
  ∀ x, x ∈ (foldl (λ c w, count_up w c) c l).*1 ↔ x ∈ c.*1 ∨ x ∈ l.
Proof.
  revert c. induction l as [|w l IH]; intros c Hc; cbn.
  - split; [done|]. intros x. rewrite elem_of_nil. tauto.
  - destruct (IH (count_up w c)) as [Hnd Hin]; [by apply count_up_NoDup|].
    split; [done|]. intros x. rewrite Hin, count_up_elem_of, elem_of_cons.
    tauto.
Qed.

(** The keys of the counter are the distinct words of the text. *)
Lemma Counter_keys l : (Counter l).*1 ≡ₚ remove_dups l.
Proof.
  destruct (Counter_from_spec l []) as [Hnd Hin]; [constructor|].
  apply NoDup_Permutation; [done|apply NoDup_remove_dups|].
  intros x. rewrite elem_of_remove_dups. unfold Counter. rewrite Hin.
  cbn. rewrite elem_of_nil. tauto.
Qed.

Lemma insert_desc_Permutation x c : insert_desc x c ≡ₚ x :: c.
Proof.
  induction c as [|y c IH]; cbn; [done|].
  case_decide; [done|]. rewrite IH. apply Permutation_swap.
Qed.

Lemma sorted_desc_Permutation c : sorted_desc c ≡ₚ c.
Proof.
  induction c as [|x c IH]; cbn; [done|].
  by rewrite insert_desc_Permutation, IH.
Qed.

(** The sort orders by decreasing count. *)
Lemma insert_desc_Sorted x c :
  Sorted (λ a b, (b.2 ≤ a.2)%nat) c →
  Sorted (λ a b, (b.2 ≤ a.2)%nat) (insert_desc x c).
Proof.
  induction 1 as [|y c Hc IH Hy]; cbn.
  - repeat constructor.
  - case_decide.
    + repeat constructor; done.
    + constructor; [done|]. destruct Hy as [|z c' Hz]; cbn.
      * constructor. lia.
      * case_decide; constructor; [lia|done].
Qed.

Lemma sorted_desc_Sorted c : Sorted (λ a b, (b.2 ≤ a.2)%nat) (sorted_desc c).
Proof.
  induction c as [|x c IH]; cbn; [constructor|by apply insert_desc_Sorted].
Qed.

Lemma most_common_length c (n : Z) :
  length (most_common c n) = (Z.to_nat n `min` length c)%nat.
Proof.
  unfold most_common. by rewrite length_take, sorted_desc_Permutation.
Qed.

Lemma most_common_sublist c (n : Z) : ∃ c', c' ≡ₚ c ∧ most_common c n `sublist_of` c'.
Proof.
  exists (sorted_desc c). split; [apply sorted_desc_Permutation|apply sublist_take].
Qed.

Lemma most_common_NoDup c (n : Z) : NoDup c.*1 → NoDup (most_common c n).*1.
Proof.
  intros Hc. destruct (most_common_sublist c n) as (c' & Hperm & Hsub).
  eapply sublist_NoDup; [|by apply fmap_sublist]. by rewrite Hperm.
Qed.

Lemma most_common_elem_of c (n : Z) x : x ∈ (most_common c n).*1 → x ∈ c.*1.
Proof.
  destruct (most_common_sublist c n) as (c' & Hperm & Hsub).
  intros Hx. rewrite <-Hperm. eapply elem_of_sublist; [done|].
  by apply fmap_sublist.
Qed.

(** No item is selected when the requested size is not positive. *)
Lemma most_common_nonpos c (n : Z) : n ≤ 0 → most_common c n = [].
Proof. intros Hn. unfold most_common. by replace (Z.to_nat n) with 0%nat by lia. Qed.
End counter.

(** ** The word index *)

Section word_index.
Implicit Types (ps : list (nat * string)) (d : gmap string nat).
Implicit Types (v : list string) (w : string) (i : nat).

Lemma enumerate_lookup v (k : nat) :
  enumerate v !! k = (λ w, (k, w)) <$> v !! k.
Proof. unfold enumerate. apply list_lookup_imap. Qed.

Lemma enumerate_elem_of v i w : (i, w) ∈ enumerate v ↔ v !! i = Some w.
Proof.
  rewrite list_elem_of_lookup. split.
  - intros [k Hk]. rewrite enumerate_lookup in Hk.
    destruct (v !! k) as [u|] eqn:Hu; [|done]. cbn in Hk. congruence.
  - intros Hi. exists i. rewrite enumerate_lookup, Hi. done.
Qed.

Lemma enumerate_words v : (enumerate v).*2 = v.
Proof.
  apply list_eq. intros k.
  rewrite list_lookup_fmap, enumerate_lookup. by destruct (v !! k).
Qed.

Lemma dict_of_pairs_lookup ps d w i :
  NoDup ps.*2 →
  (foldl (λ d iw, <[iw.2 := iw.1]> d) d ps) !! w = Some i ↔
  (i, w) ∈ ps ∨ (¬ w ∈ ps.*2) ∧ d !! w = Some i.
Proof.
  revert d. induction ps as [|[j u] ps IH]; intros d Hnd; cbn.
  - rewrite elem_of_nil. split; [intros ?; right; split; [apply not_elem_of_nil|done]|].
    intros [[]|[_ ?]]; done.
  - apply NoDup_cons in Hnd as [Hu Hnd]. rewrite IH by done.
    rewrite !elem_of_cons. destruct (decide (w = u)) as [->|Hne].
    + rewrite lookup_insert_eq. split.
      * intros [Hin|[_ [= ->]]]; [|by left; left].
        destruct Hu. by apply (list_elem_of_fmap_2' snd _ (i, u)).
      * intros [[[= ->]|Hin]|[Hnot _]].
        -- right. done.
        -- destruct Hu. by apply (list_elem_of_fmap_2' snd _ (i, u)).
        -- destruct Hnot. by left.
    + rewrite lookup_insert_ne by done. split.
      * intros [Hin|[Hnot Hd]]; [left; by right|].
        right. split; [|done]. intros [?|?]; done.
      * intros [[[= _ ?]|Hin]|[Hnot Hd]]; [done|by left|].
        right. split; [|done]. intros ?. apply Hnot. by right.
Qed.

Lemma dict_of_pairs_is_Some ps d w :
  w ∈ ps.*2 ∨ is_Some (d !! w) →
  is_Some ((foldl (λ d iw, <[iw.2 := iw.1]> d) d ps) !! w).
Proof.
  revert d. induction ps as [|[j u] ps IH]; intros d; cbn.
  - rewrite elem_of_nil. tauto.
  - rewrite elem_of_cons. intros Hw. apply IH.
    destruct (decide (w = u)) as [->|Hne].
    + right. rewrite lookup_insert_eq. by eexists.
    + rewrite lookup_insert_ne by done. destruct Hw as [[?|?]|?]; tauto.
Qed.

(** On a duplicate-free vocabulary the index of a word is its position. *)
Lemma word_to_ix_lookup v w i :
  NoDup v → word_to_ix v !! w = Some i ↔ v !! i = Some w.
Proof.
  intros Hnd. unfold word_to_ix.
  rewrite dict_of_pairs_lookup by (by rewrite enumerate_words).
  rewrite enumerate_elem_of, lookup_empty. split; [|tauto].
  intros [?|[_ ?]]; done.
Qed.

(** Every word of the vocabulary has an index. *)
Lemma word_to_ix_is_Some v w : w ∈ v → is_Some (word_to_ix v !! w).
Proof.
  intros Hw. apply dict_of_pairs_is_Some. left. by rewrite enumerate_words.
Qed.
End word_index.

(** ** The vocabulary and its ids *)

Section vocabulary.
Context `{HashOrder}.
Implicit Types (raw_text v : list string) (K : Z).

Lemma Counter_nonempty raw_text : raw_text ≠ [] → Counter raw_text ≠ [].
Proof.
  intros Hne Hc. pose proof (Counter_keys raw_text) as Hperm.
  rewrite Hc in Hperm. cbn in Hperm. symmetry in Hperm.
  apply Permutation_nil_r in Hperm.
  destruct raw_text as [|w l]; [done|].
  assert (w ∈ remove_dups (w :: l)) as Hw by (apply elem_of_remove_dups; left).
  rewrite Hperm in Hw. by apply elem_of_nil in Hw.
Qed.

(** Whatever the iteration order of the dict, its items are those of the
    counter and its keys the distinct words of the text. *)
Lemma raw_text_count_Permutation raw_text :
  raw_text_count raw_text ≡ₚ Counter raw_text.
Proof. apply dict_iter_perm. Qed.

Lemma raw_text_count_keys raw_text :
  (raw_text_count raw_text).*1 ≡ₚ remove_dups raw_text.
Proof. rewrite raw_text_count_Permutation. apply Counter_keys. Qed.

Lemma raw_text_count_nil : raw_text_count [] = [].
Proof.
  apply Permutation_nil_r. exact (raw_text_count_Permutation []).
Qed.

(** What [vocab] returns on a non-empty text, for a positive size. *)
Lemma vocab_Ok raw_text K :
  raw_text ≠ [] → 1 ≤ K →
  ∃ v, vocab raw_text K = Ok v ∧ NoDup v ∧
       v ≡ₚ (most_common (raw_text_count raw_text) K).*1 ∧
       vocab_size v = (Z.to_nat K `min` length (remove_dups raw_text))%nat.
Proof.
  intros Hne HK. unfold vocab.
  pose proof (most_common_length (raw_text_count raw_text) K) as Hlen.
  assert (NoDup (most_common (raw_text_count raw_text) K).*1) as Hnd.
  { apply most_common_NoDup. rewrite raw_text_count_keys. apply NoDup_remove_dups. }
  rewrite <-(length_fmap fst (raw_text_count raw_text)), raw_text_count_keys in Hlen.
  destruct (most_common (raw_text_count raw_text) K) as [|p ps] eqn:Hmc.
  { exfalso. cbn in Hlen.
    pose proof (Counter_nonempty raw_text Hne) as Hc.
    pose proof (Counter_keys raw_text) as Hperm.
    apply Permutation_length in Hperm. rewrite length_fmap in Hperm.
    destruct (Counter raw_text); [done|]. cbn in Hperm. lia. }
  cbn [zip_star_0 mbind result_bind mret result_ret].
  exists (set_iter (p :: ps).*1).
  assert (set_iter (p :: ps).*1 ≡ₚ (p :: ps).*1) as Hperm.
  { rewrite set_iter_perm.
    apply NoDup_Permutation; [apply NoDup_remove_dups|done|].
    apply elem_of_remove_dups. }
  split; [done|]. split; [by rewrite Hperm|]. split; [done|].
  unfold vocab_size. by rewrite Hperm, length_fmap.
Qed.
End vocabulary.

(** C3, on the empty text: [most_common] selects nothing, the transposition
    has no row 0 and the cell raises [IndexError], so no vocabulary of
    [min(K, 0) = 0] entries is returned. *)
Lemma vocab_empty_text_counterexample :
  ¬ ∃ v, @vocab insertion_order [] 1 = Ok v ∧ vocab_spec [] 1 v.
Proof. intros (v & Hv & _). vm_compute in Hv. discriminate. Qed.

(** C3, amended. For every non-empty token sequence and every requested size
    [K >= 1], whatever the iteration orders of the dict and of the set, the
    vocabulary has exactly [min(K, number of distinct tokens)] entries, all
    of them distinct tokens of the text, and [word_to_ix] is a bijection from
    the vocabulary onto the ids below its size. *)
Theorem vocab_size_and_ids `{HashOrder} (raw_text : list string) (K : Z) :
  raw_text ≠ [] → 1 ≤ K →
  ∃ v, vocab raw_text K = Ok v ∧ vocab_spec raw_text K v.
Proof.
  intros Hne HK.
  destruct (vocab_Ok raw_text K Hne HK) as (v & Hv & Hnd & Hperm & Hsize).
  exists v. split; [done|]. split; [done|]. split; [|split; [done|]].
  - intros w Hw. rewrite Hperm in Hw.
    apply most_common_elem_of in Hw.
    rewrite raw_text_count_keys in Hw. by rewrite elem_of_remove_dups in Hw.
  - unfold ids_bijective, vocab_size. split_and!.
    + intros w Hw. apply list_elem_of_lookup in Hw as [i Hi].
      exists i. split; [by apply word_to_ix_lookup|by eapply lookup_lt_Some].
    + intros w1 w2 i _ _ H1 H2.
      apply word_to_ix_lookup in H1, H2; [|done..]. congruence.
    + intros i Hi. destruct (lookup_lt_is_Some_2 v i Hi) as [w Hw].
      exists w. split; [by eapply list_elem_of_lookup_2|by apply word_to_ix_lookup].
Qed.

Lemma vocab_size_and_ids_witness :
  ∃ v, @vocab reversed_order ["b"; "a"; "b"]%string 1 = Ok v
       ∧ vocab_spec ["b"; "a"; "b"]%string 1 v.
Proof. apply (@vocab_size_and_ids reversed_order); [done|lia]. Defined.

(** ** Cell 8, at a concrete input *)

Lemma text_filter_spec_witness :
  length (filter ("a"%string =.) (text ["a"; "x"; "a"; "b"]%string ["a"]%string))
  = length (filter ("a"%string =.) ["a"; "x"; "a"; "b"]%string).
Proof.
  apply (text_filter_spec ["a"; "x"; "a"; "b"]%string ["a"]%string).
  apply list_elem_of_singleton. reflexivity.
Defined.

(** ** Cell 14: reading the window *)

Section window.
Context {A : Type}.
Implicit Types (l : list A) (i a n : Z).

(** Reading consecutive in-range positions returns the corresponding
    segment of the list. *)
Lemma mapM_index_seqZ l i a n :
  0 ≤ i + a → 0 ≤ n → i + a + n ≤ Z.of_nat (length l) →
  mapM (λ j, index l (i + j)) (seqZ a n)
  = Ok (take (Z.to_nat n) (drop (Z.to_nat (i + a)) l)).
Proof.
  intros Hlo Hn Hhi. apply mapM_Ok, Forall2_same_length_lookup. split.
  - rewrite length_seqZ, length_take, length_drop. lia.
  - intros k j x Hj Hx. apply lookup_seqZ in Hj as [-> Hk].
    apply lookup_take_Some in Hx as [Hx _]. rewrite lookup_drop in Hx.
    apply index_lookup; [lia|].
    by replace (Z.to_nat (i + (a + Z.of_nat k))) with (Z.to_nat (i + a) + k)%nat by lia.
Qed.
End window.

Lemma filter_all {A : Type} (P : A → Prop) `{!∀ x, Decision (P x)} (l : list A) :
  Forall P l → filter P l = l.
Proof.
  induction 1 as [|x l Hx _ IH]; [done|].
  by rewrite filter_cons_True, IH.
Qed.

(** The offsets of a window of radius [W]: [-W .. -1], then [1 .. W]. *)
Lemma offsets_split (W : Z) : 0 ≤ W → offsets W = seqZ (- W) W ++ seqZ 1 W.
Proof.
  intros HW. unfold offsets, range.
  replace (W + 1 - - W) with (W + (1 + W)) by lia.
  rewrite seqZ_app by lia. replace (- W + W) with 0 by lia.
  rewrite (seqZ_cons 0) by lia. rewrite filter_app, filter_cons_False by (intros ?; done).
  replace (Z.succ 0) with 1 by lia. replace (Z.pred (1 + W)) with W by lia.
  f_equal; apply filter_all, Forall_seqZ; lia.
Qed.

Lemma mapM_app {A B : Type} (f : A → result B) (l1 l2 : list A) :
  mapM f (l1 ++ l2) = k1 ← mapM f l1; k2 ← mapM f l2; mret (k1 ++ k2).
Proof.
  induction l1 as [|x l1 IH]; cbn.
  - by destruct (mapM f l2).
  - destruct (f x) as [y|e]; cbn; [|done]. rewrite IH.
    destruct (mapM f l1) as [k1|e]; cbn; [|done].
    by destruct (mapM f l2).
Qed.

(** ** Cell 14: the loop *)

Section loop.
Variables (text : list string) (d : gmap string nat) (W : Z).
Hypothesis known : ∀ w, w ∈ text → is_Some (d !! w).

Lemma getitem_known w : w ∈ text → getitem d w = Ok (word_id d w).
Proof.
  intros [i Hi]%known. unfold getitem, word_id. by rewrite Hi.
Qed.

Lemma make_context_vector_known context :
  (∀ w, w ∈ context → w ∈ text) →
  make_context_vector context d = Ok (word_id d <$> context).
Proof.
  intros Hsub. apply mapM_Ok_fmap. intros w Hw. by apply getitem_known, Hsub.
Qed.

(** A turn of the loop at a centre with [W] words on each side appends
    one row and one target. *)
Lemma dataset_step_Ok XY i :
  0 ≤ W → W ≤ i → i + W < Z.of_nat (length text) →
  dataset_step text d W XY i
  = Ok (XY.1 ++ [window_row text d W i], XY.2 ++ [window_target text d i]).
Proof.
  intros HW Hlo Hhi. unfold dataset_step.
  rewrite offsets_split, mapM_app by done.
  rewrite (mapM_index_seqZ text i (- W) W) by lia.
  rewrite (mapM_index_seqZ text i 1 W) by lia.
  cbn [mbind result_bind mret result_ret].
  destruct (lookup_lt_is_Some_2 text (Z.to_nat i)) as [w Hw]; [lia|].
  rewrite (index_lookup text i w) by (done || lia).
  cbn [mbind result_bind].
  rewrite make_context_vector_known; cbn [mbind result_bind].
  - rewrite getitem_known by (by eapply list_elem_of_lookup_2).
    cbn [mbind result_bind mret result_ret].
    unfold window_row, window_target. rewrite Hw. cbn.
    by replace (i + - W) with (i - W) by lia.
  - intros u [Hu|Hu]%elem_of_app.
    + eapply elem_of_sublist; [done|].
      etrans; [apply sublist_take|apply sublist_drop].
    + eapply elem_of_sublist; [done|].
      etrans; [apply sublist_take|apply sublist_drop].
Qed.

Lemma foldM_dataset_step XY (a : Z) (m : nat) :
  0 ≤ W → W ≤ a → a + Z.of_nat m + W ≤ Z.of_nat (length text) →
  foldM (dataset_step text d W) XY (seqZ a (Z.of_nat m))
  = Ok (XY.1 ++ (window_row text d W <$> seqZ a (Z.of_nat m)),
        XY.2 ++ (window_target text d <$> seqZ a (Z.of_nat m))).
Proof.
  intros HW. revert XY a. induction m as [|m IH]; intros [X Y] a Ha Hm.
  - cbn. by rewrite !app_nil_r.
  - rewrite seqZ_cons by lia.
    replace (Z.pred (Z.of_nat (S m))) with (Z.of_nat m) by lia.
    cbn [foldM]. rewrite dataset_step_Ok by lia.
    cbn [mbind result_bind fst snd]. rewrite IH by lia.
    cbn [fst snd]. rewrite !fmap_cons, <-!app_assoc. done.
Qed.

(** The loop appends one example per valid centre, in increasing order. *)
Lemma dataset_Ok :
  0 ≤ W →
  dataset text d W
  = Ok (window_row text d W <$> range W (Z.of_nat (length text) - W),
        window_target text d <$> range W (Z.of_nat (length text) - W)).
Proof.
  intros HW. unfold dataset, range.
  destruct (Z.le_gt_cases (Z.of_nat (length text) - W - W) 0) as [Hle|Hgt].
  - by rewrite seqZ_nil.
  - rewrite <-(Z2Nat.id (Z.of_nat (length text) - W - W)) by lia.
    rewrite foldM_dataset_step by lia. done.
Qed.
End loop.

(** A sequence without room for a full window gives no turn of the loop. *)
Lemma dataset_short (text : list string) (d : gmap string nat) (W : Z) :
  Z.of_nat (length text) < 2 * W + 1 → dataset text d W = Ok ([], []).
Proof.
  intros Hlen. unfold dataset, range. by rewrite seqZ_nil by lia.
Qed.

Lemma token_id_known (text : list string) (d : gmap string nat) (p : nat) (w : string) :
  text !! p = Some w → is_Some (d !! w) →
  token_id text d p = Some (word_id d w).
Proof.
  intros Hp [i Hi]. unfold token_id, word_id. rewrite Hp. cbn. by rewrite Hi.
Qed.

(** The appended row and target are the example centred at [i]. *)
Lemma window_example_at (text : list string) (d : gmap string nat) (W i : Z) :
  (∀ w, w ∈ text → is_Some (d !! w)) →
  0 ≤ W → W ≤ i → i + W < Z.of_nat (length text) →
  example_at text d (Z.to_nat W) (Z.to_nat i)
             (window_row text d W i) (window_target text d i).
Proof.
  intros known HW Hlo Hhi.
  assert (∀ p, (p < length text)%nat →
            ∃ w, text !! p = Some w ∧ token_id text d p = Some (word_id d w))
    as Htok.
  { intros p Hp. destruct (lookup_lt_is_Some_2 text p Hp) as [w Hw].
    exists w. split; [done|]. apply token_id_known; [done|].
    by eapply known, list_elem_of_lookup_2. }
  unfold example_at, window_row. split_and!.
  - rewrite length_fmap, length_app, !length_take, !length_drop. lia.
  - intros k Hk.
    destruct (Htok (Z.to_nat i - Z.to_nat W + k)%nat) as (w1 & Hw1 & ->); [lia|].
    destruct (Htok (Z.to_nat i + 1 + k)%nat) as (w2 & Hw2 & ->); [lia|].
    rewrite !list_lookup_fmap. split.
    + rewrite lookup_app_l by (rewrite length_take, length_drop; lia).
      rewrite lookup_take_lt, lookup_drop by done.
      replace (Z.to_nat (i - W) + k)%nat
        with (Z.to_nat i - Z.to_nat W + k)%nat by lia.
      by rewrite Hw1.
    + rewrite lookup_app_r by (rewrite length_take, length_drop; lia).
      rewrite length_take, length_drop.
      rewrite lookup_take_lt, lookup_drop by lia.
      replace (Z.to_nat (i + 1) +
               (Z.to_nat W + k - Z.to_nat W `min` (length text - Z.to_nat (i - W))))%nat
        with (Z.to_nat i + 1 + k)%nat by lia.
      by rewrite Hw2.
  - destruct (Htok (Z.to_nat i)) as (w & Hw & ->); [lia|].
    unfold window_target. by rewrite Hw.
Qed.

Lemma foldM_Raise {A S : Type} (f : S → A → result S) (s : S) (xs : list A) (e : exn) :
  foldM f s xs = Raise e → ∃ s' x, x ∈ xs ∧ f s' x = Raise e.
Proof.
  revert s. induction xs as [|x xs IH]; intros s; cbn; [done|].
  destruct (f s x) as [s'|e'] eqn:Hf; cbn.
  - intros (s'' & y & Hy & Hfy)%IH. exists s'', y. split; [by right|done].
  - intros [= ->]. exists s, x. split; [left|done].
Qed.

(** With every word of the text in the dict, the only exception a turn of
    the loop can raise comes from reading outside the text. *)
Lemma dataset_step_Raise (text : list string) (d : gmap string nat) (W : Z)
    (XY : list (list nat) * list nat) (i : Z) (e : exn) :
  (∀ w, w ∈ text → is_Some (d !! w)) →
  dataset_step text d W XY i = Raise e → e = IndexError.
Proof.
  intros known. unfold dataset_step.
  destruct (mapM _ (offsets W)) as [context|e'] eqn:Hctx; cbn [mbind result_bind].
  2:{ intros [= ->]. apply mapM_Raise in Hctx as (j & _ & Hj).
      by eapply index_Raise. }
  destruct (index text i) as [target|e'] eqn:Htgt; cbn [mbind result_bind].
  2:{ intros [= ->]. by eapply index_Raise. }
  rewrite (make_context_vector_known text d known); cbn [mbind result_bind].
  - rewrite (getitem_known text d known) by (by eapply index_Ok_elem_of).
    done.
  - intros w Hw. apply mapM_Ok_inv in Hctx.
    apply list_elem_of_lookup in Hw as [k Hk].
    destruct (Forall2_lookup_r _ _ _ _ _ Hctx Hk) as (j & _ & Hj).
    by eapply index_Ok_elem_of.
Qed.

(** ** The dataset *)

(** C1. For a filtered text of length [L] whose words all have an id, and a
    window radius [W >= 1], the loop produces exactly [max(0, L - 2W)]
    examples; the [k]-th one is centred at position [W + k], so the centres
    are the positions [W <= i < L - W] in increasing order; its context is
    the [2W] ids of the words at offsets [-W..-1] and [1..W] from the centre,
    from left to right, and its target is the id of the word at the centre. *)
Theorem dataset_examples (text : list string) (d : gmap string nat) (W : Z) :
  1 ≤ W → (∀ w, w ∈ text → is_Some (d !! w)) →
  ∃ X Y, dataset text d W = Ok (X, Y) ∧
    length X = Z.to_nat (Z.max 0 (Z.of_nat (length text) - 2 * W)) ∧
    length Y = length X ∧
    ∀ k, (k < length X)%nat →
      ∃ row y, X !! k = Some row ∧ Y !! k = Some y ∧
        example_at text d (Z.to_nat W) (Z.to_nat W + k) row y.
Proof.
  intros HW known. rewrite dataset_Ok by (done || lia).
  eexists _, _. split; [done|]. unfold range.
  rewrite !length_fmap, length_seqZ. split_and!; [lia|done|].
  intros k Hk.
  exists (window_row text d W (W + Z.of_nat k)), (window_target text d (W + Z.of_nat k)).
  rewrite !list_lookup_fmap, lookup_seqZ_lt by lia. split_and!; [done..|].
  replace (Z.to_nat W + k)%nat with (Z.to_nat (W + Z.of_nat k)) by lia.
  apply window_example_at; [done|lia..].
Qed.

(** C5, amended. For every filtered sequence shorter than [2W + 1] the loop
    body never runs: no exception is raised and the dataset is empty. *)
Theorem dataset_too_short (text : list string) (d : gmap string nat) (W : Z) :
  Z.of_nat (length text) < 2 * W + 1 → dataset text d W = Ok ([], []).
Proof.
  intros Hlen. unfold dataset, range.
  assert (Z.of_nat (length text) - W - W ≤ 0) as Hempty by lia.
  rewrite (seqZ_nil W _ Hempty). reflexivity.
Qed.

(** C6, amended. For a window radius [W >= 1], a filtered sequence of length
    exactly [2W + 1] whose words all have an id produces exactly one
    example, centred at position [W]; a shorter one produces the empty
    dataset and no exception. *)
Theorem dataset_boundary (text : list string) (d : gmap string nat) (W : Z) :
  1 ≤ W → (∀ w, w ∈ text → is_Some (d !! w)) →
  (Z.of_nat (length text) = 2 * W + 1 →
     ∃ row y, dataset text d W = Ok ([row], [y]) ∧
              example_at text d (Z.to_nat W) (Z.to_nat W) row y) ∧
  (Z.of_nat (length text) < 2 * W + 1 → dataset text d W = Ok ([], [])).
Proof.
  intros HW known. split; [|apply dataset_short].
  intros Hlen. rewrite dataset_Ok by (done || lia). unfold range.
  replace (Z.of_nat (length text) - W - W) with 1 by lia.
  exists (window_row text d W W), (window_target text d W).
  split; [done|]. apply window_example_at; [done|lia..].
Qed.

(** C8. When the loop runs on a text filtered by the vocabulary from which
    the dict was built, no lookup in the dict fails: [KeyError] is never
    raised, whatever the radius, and for a radius [W >= 0] the loop returns
    a dataset.  In particular the pipeline, which filters by the vocabulary
    it numbers, never raises [KeyError]. *)
Theorem filtered_lookups_succeed (raw_text v : list string) (W : Z) :
  dataset (text raw_text v) (word_to_ix v) W ≠ Raise KeyError ∧
  (0 ≤ W → ∃ X Y, dataset (text raw_text v) (word_to_ix v) W = Ok (X, Y)) ∧
  (∀ (o : HashOrder) (K : Z), @pipeline o raw_text K W ≠ Raise KeyError).
Proof.
  assert (∀ u, (∀ w, w ∈ text raw_text u → is_Some (word_to_ix u !! w)) ∧
               dataset (text raw_text u) (word_to_ix u) W ≠ Raise KeyError)
    as Hall.
  { intros u.
    assert (∀ w, w ∈ text raw_text u → is_Some (word_to_ix u !! w)) as known.
    { intros w Hw. apply word_to_ix_is_Some.
      unfold text in Hw. by apply list_elem_of_filter in Hw as [? _]. }
    split; [done|]. intros Hraise. unfold dataset in Hraise.
    apply foldM_Raise in Hraise as (XY & i & _ & Hstep).
    by apply dataset_step_Raise in Hstep. }
  split_and!.
  - apply Hall.
  - intros HW. rewrite dataset_Ok by (apply Hall || done). by eexists _, _.
  - intros o K. unfold pipeline.
    destruct (vocab raw_text K) as [u|e] eqn:Hvocab; cbn [mbind result_bind].
    + apply Hall.
    + unfold vocab in Hvocab.
      destruct (most_common (raw_text_count raw_text) K); [|done].
      cbn in Hvocab. by intros [= ->].
Qed.

Lemma dataset_examples_witness :
  ∃ X Y, dataset abcde abcde_ids 1 = Ok (X, Y) ∧
    length X = Z.to_nat (Z.max 0 (Z.of_nat (length abcde) - 2 * 1)) ∧
    length Y = length X ∧
    ∀ k, (k < length X)%nat →
      ∃ row y, X !! k = Some row ∧ Y !! k = Some y ∧
        example_at abcde abcde_ids (Z.to_nat 1) (Z.to_nat 1 + k) row y.
Proof. apply (dataset_examples abcde abcde_ids 1); [lia|known_words]. Defined.

(** C2. On the tokens [a b c d e], all in the vocabulary, with the ids
    [a=0, b=1, c=2, d=3, e=4] and a window radius of 2 (the notebook's
    [CONTEXT_SIZE]), filtering keeps the five tokens and the loop yields
    exactly one example: context [[0, 1, 3, 4]], target [2]. *)
Theorem dataset_abcde :
  text abcde abcde = abcde ∧
  dataset abcde abcde_ids 2 = Ok ([[0; 1; 3; 4]%nat], [2%nat]) ∧
  notebook_dataset abcde abcde_ids = Ok ([[0; 1; 3; 4]%nat], [2%nat]).
Proof. split_and!; vm_compute; reflexivity. Qed.

(** C5, as stated: on a sequence of four words and a radius of 2 the loop
    does not raise [InsufficientDataError]; it returns the empty dataset. *)
Lemma dataset_too_short_counterexample :
  dataset abcd abcde_ids 2 ≠ Raise "InsufficientDataError"%string.
Proof. vm_compute. discriminate. Qed.

Lemma dataset_too_short_witness : dataset abcd abcde_ids 2 = Ok ([], []).
Proof. apply (dataset_too_short abcd abcde_ids 2). vm_compute. reflexivity. Defined.

(** C6, as stated: a sequence of length exactly [2W], here four words for a
    radius of 2, does not produce one example. *)
Lemma dataset_boundary_counterexample :
  Z.of_nat (length abcd) = 2 * 2 ∧
  ¬ ∃ row y, dataset abcd abcde_ids 2 = Ok ([row], [y]).
Proof. split; [reflexivity|]. intros (row & y & Hd). vm_compute in Hd. discriminate. Qed.

Lemma dataset_boundary_witness :
  ∃ row y, dataset abcde abcde_ids 2 = Ok ([row], [y]) ∧
           example_at abcde abcde_ids (Z.to_nat 2) (Z.to_nat 2) row y.
Proof.
  apply (dataset_boundary abcde abcde_ids 2); [lia|known_words|reflexivity].
Defined.

Lemma filtered_lookups_succeed_witness :
  ∃ X Y, dataset (text abcde aba) (word_to_ix aba) 0 = Ok (X, Y).
Proof. apply (filtered_lookups_succeed abcde aba 0). lia. Defined.

(** ** The whole pipeline *)


(** ** The batch generator *)

Lemma slice_arange (n a b : Z) :
  0 ≤ a → a ≤ b → b ≤ n → slice (arange n) a b = seqZ a (b - a).
Proof.
  intros Ha Hab Hbn. unfold slice, arange, range, clamp.
  rewrite length_seqZ, Z.sub_0_r, Z2Nat.id by lia.
  destruct (Z.ltb_spec a 0); [lia|]. destruct (Z.ltb_spec b 0); [lia|].
  rewrite !Z.min_l by lia. apply list_eq. intros i.
  destruct (decide (i < Z.to_nat (b - a))%nat) as [Hi|Hi].
  - rewrite lookup_take_lt, lookup_drop, !lookup_seqZ_lt by lia. f_equal. lia.
  - rewrite lookup_take_ge, lookup_seqZ_ge by lia. done.
Qed.

Lemma np_take_seqZ {A : Type} (rows : list A) (a m : Z) :
  0 ≤ a → 0 ≤ m → a + m ≤ Z.of_nat (length rows) →
  np_take rows (seqZ a m) = Ok (take (Z.to_nat m) (drop (Z.to_nat a) rows)).
Proof.
  intros Ha Hm Hlen. apply (mapM_index_seqZ rows 0 a m); lia.
Qed.

Section batcher.
Variables (X : list (list nat)) (Y : list nat) (batch_size : Z).
Hypothesis positive : 1 ≤ batch_size.
Hypothesis same_rows : length Y = length X.

Local Abbreviation B := (Z.to_nat batch_size).

(** Below the number of rows the generator yields the next [batch_size]
    rows (fewer at the end) and advances by [batch_size]. *)
Lemma data_batcher_next_Yield (c : nat) :
  (c < length X)%nat →
  data_batcher_next X Y batch_size (Z.of_nat c)
  = Yield (take B (drop c X)) (take B (drop c Y)) (Z.of_nat (c + B)).
Proof.
  intros Hc. unfold data_batcher_next.
  destruct (Z.ltb_spec (Z.of_nat c) (Z.of_nat (length X))); [|lia].
  rewrite slice_arange by lia.
  rewrite !np_take_seqZ by lia. rewrite Nat2Z.id.
  assert (∀ {T} (l : list T), length l = length X →
     take (Z.to_nat (Z.min (Z.of_nat c + batch_size) (Z.of_nat (length X)) - Z.of_nat c))
          (drop c l) = take B (drop c l)) as Htake.
  { intros T l Hl. destruct (Z.le_gt_cases (Z.of_nat c + batch_size) (Z.of_nat (length X))).
    - f_equal. lia.
    - rewrite !take_ge; [done|rewrite length_drop; lia..]. }
  rewrite !Htake by done. f_equal. lia.
Qed.

Lemma data_batcher_next_Stop (c : nat) :
  (length X ≤ c)%nat →
  data_batcher_next X Y batch_size (Z.of_nat c) = StopIteration.
Proof.
  intros Hc. unfold data_batcher_next.
  destruct (Z.ltb_spec (Z.of_nat c) (Z.of_nat (length X))); [lia|done].
Qed.

(** Asked often enough from the state [count = c], the generator yields
    the slices that start at [c], [c + B], [c + 2B], ... below the number
    of rows and then stops. *)
Lemma data_batcher_from_spec (fuel c : nat) :
  (length X - c < fuel)%nat →
  ∃ batches,
    data_batcher_from fuel X Y batch_size (Z.of_nat c) = (batches, Exhausted) ∧
    concat batches.*1 = drop c X ∧
    concat batches.*2 = drop c Y ∧
    (length X - c ≤ length batches * B < length X - c + B)%nat ∧
    ∀ k b, batches !! k = Some b →
      (c + k * B < length X)%nat ∧
      b = (take B (drop (c + k * B) X), take B (drop (c + k * B) Y)).
Proof.
  revert c. induction fuel as [|fuel IH]; intros c Hfuel; [lia|].
  cbn [data_batcher_from].
  destruct (decide (c < length X)%nat) as [Hc|Hc].
  - rewrite data_batcher_next_Yield by done.
    destruct (IH (c + B)%nat) as (bs & -> & HX & HY & Hlen & Hbs); [lia|].
    eexists. split; [done|]. cbn [fst snd fmap list_fmap concat length].
    split_and!.
    + rewrite <-(take_drop B (drop c X)) at 2. by rewrite drop_drop, <-HX.
    + rewrite <-(take_drop B (drop c Y)) at 2. by rewrite drop_drop, <-HY.
    + lia.
    + destruct (decide (c + B ≤ length X)%nat); [lia|].
      destruct (length bs) as [|m]; lia.
    + intros [|k] b; cbn.
      * intros [= <-]. rewrite Nat.add_0_r. split; [lia|done].
      * intros Hb. apply Hbs in Hb as [Hlt ->].
        replace (c + (B + k * B))%nat with (c + B + k * B)%nat by lia. done.
  - rewrite data_batcher_next_Stop by lia. exists [].
    split_and!; [done| | |cbn; lia..|done].
    + cbn. by rewrite drop_ge by lia.
    + cbn. by rewrite drop_ge by lia.
Qed.
End batcher.


(** C10. For arrays [X] and [Y] with the same number of rows and a batch
    size [B >= 1], the generator yields finitely many batches and then stops;
    the [k]-th batch is the slice of rows [k*B .. min((k+1)*B, n) - 1] of [X]
    and of [Y], in their original order, so the batches are consecutive and
    do not overlap; every batch holds exactly [B] examples except possibly
    the last, which holds the remaining ones (at least one); there are
    [ceil(n / B)] batches, and concatenating them gives back [X] and [Y]. *)
Theorem data_batcher_spec (X : list (list nat)) (Y : list nat)
    (batch_size : Z) (fuel : nat) :
  1 ≤ batch_size → length Y = length X → (length X < fuel)%nat →
  ∃ batches,
    data_batcher fuel X Y batch_size = (batches, Exhausted) ∧
    concat batches.*1 = X ∧
    concat batches.*2 = Y ∧
    (length X ≤ length batches * Z.to_nat batch_size
       < length X + Z.to_nat batch_size)%nat ∧
    ∀ k b, batches !! k = Some b →
      b = batch_at X Y (Z.to_nat batch_size) k ∧
      length b.1 = length b.2 ∧
      (1 ≤ length b.1 ≤ Z.to_nat batch_size)%nat ∧
      (S k < length batches → length b.1 = Z.to_nat batch_size)%nat.
Proof.
  intros HB Hrows Hfuel.
  destruct (data_batcher_from_spec X Y batch_size HB Hrows fuel 0)
    as (bs & Hrun & HX & HY & Hlen & Hbs); [lia|].
  exists bs. split; [done|]. split; [done|]. split; [done|].
  split; [lia|]. intros k b Hb.
  destruct (Hbs k b Hb) as [Hk ->]. cbn [fst snd Nat.add] in *.
  unfold batch_at. split; [done|].
  rewrite !length_take, !length_drop, Hrows. split; [done|]. split; [lia|].
  intros Hnext. destruct (lookup_lt_is_Some_2 bs (S k) Hnext) as [b' Hb'].
  apply Hbs in Hb' as [Hk' _]. cbn [Nat.add Nat.mul] in Hk'. lia.
Qed.

Lemma data_batcher_spec_witness :
  ∃ batches,
    data_batcher 6 [[0; 1]; [1; 2]; [2; 3]; [3; 4]; [4; 5]]%nat [5; 6; 7; 8; 9]%nat 2
    = (batches, Exhausted) ∧
    concat batches.*1 = [[0; 1]; [1; 2]; [2; 3]; [3; 4]; [4; 5]]%nat ∧
    concat batches.*2 = [5; 6; 7; 8; 9]%nat ∧
    (5 ≤ length batches * 2 < 5 + 2)%nat ∧
    ∀ k b, batches !! k = Some b →
      b = batch_at [[0; 1]; [1; 2]; [2; 3]; [3; 4]; [4; 5]]%nat [5; 6; 7; 8; 9]%nat 2 k ∧
      length b.1 = length b.2 ∧
      (1 ≤ length b.1 ≤ 2)%nat ∧
      (S k < length batches → length b.1 = 2)%nat.
Proof.
  apply (data_batcher_spec [[0; 1]; [1; 2]; [2; 3]; [3; 4]; [4; 5]]%nat
                           [5; 6; 7; 8; 9]%nat 2 6); [lia|reflexivity|cbn; lia].
Defined.


(** * Further properties of the cells *)

(** ** The counter and the selection of the vocabulary *)

Section counter_counts.
Implicit Types (c : list (string * nat)) (l : list string) (w u : string).

Lemma occurrences_cons w u l :
  occurrences w (u :: l)
  = ((if decide (w = u) then 1 else 0) + occurrences w l)%nat.
Proof.
  unfold occurrences. rewrite filter_cons.
  destruct (decide (w = u)); done.
Qed.

Lemma occurrences_pos w l : w ∈ l ↔ (0 < occurrences w l)%nat.
Proof.
  induction l as [|u l IH]; [rewrite elem_of_nil; cbn; lia|].
  rewrite occurrences_cons, elem_of_cons. destruct (decide (w = u)); [|rewrite IH]; split; try lia; tauto.
Qed.

Lemma counter_get_count_up w u c :
  counter_get (count_up w c) u
  = ((if decide (u = w) then 1 else 0) + counter_get c u)%nat.
Proof.
  induction c as [|[k n] c IH]; cbn.
  - destruct (decide (w = u)), (decide (u = w)); congruence || done.
  - destruct (decide (k = w)) as [->|Hne]; cbn.
    + destruct (decide (w = u)), (decide (u = w)); congruence || lia.
    + destruct (decide (k = u)) as [->|Hku]; [|done].
      rewrite decide_False by congruence. done.
Qed.

Lemma counter_get_foldl l c u :
  counter_get (foldl (λ c w, count_up w c) c l) u
  = (counter_get c u + occurrences u l)%nat.
Proof.
  revert c. induction l as [|w l IH]; intros c.
  - unfold occurrences. cbn. lia.
  - cbn [foldl]. rewrite IH, counter_get_count_up, occurrences_cons. lia.
Qed.

Lemma counter_get_elem_of c w n :
  NoDup c.*1 → (w, n) ∈ c → counter_get c w = n.
Proof.
  induction c as [|[k m] c IH]; cbn; [by intros _ ?%elem_of_nil|].
  intros [Hk Hnd]%NoDup_cons [[= -> ->]|Hin]%elem_of_cons.
  - by rewrite decide_True.
  - rewrite decide_False; [by apply IH|]. intros ->.
    apply Hk. by apply (list_elem_of_fmap_2' fst _ (w, n)).
Qed.

Lemma counter_get_key c w : w ∈ c.*1 → (w, counter_get c w) ∈ c.
Proof.
  induction c as [|[k m] c IH]; cbn; [by intros ?%elem_of_nil|].
  intros [->|Hin]%elem_of_cons.
  - rewrite decide_True by done. left.
  - destruct (decide (k = w)) as [->|Hne]; [left|right; by apply IH].
Qed.

Lemma Counter_NoDup l : NoDup (Counter l).*1.
Proof. rewrite Counter_keys. apply NoDup_remove_dups. Qed.

Lemma Counter_key l w : w ∈ (Counter l).*1 ↔ w ∈ l.
Proof. by rewrite Counter_keys, elem_of_remove_dups. Qed.

Lemma Counter_get l w : counter_get (Counter l) w = occurrences w l.
Proof. unfold Counter. by rewrite counter_get_foldl. Qed.
End counter_counts.

Lemma Counter_item (raw_text : list string) (w : string) (n : nat) :
  (w, n) ∈ Counter raw_text → n = occurrences w raw_text.
Proof.
  intros Hin. rewrite <-Counter_get. symmetry.
  by apply counter_get_elem_of; [apply Counter_NoDup|].
Qed.

Lemma Counter_item_of (raw_text : list string) (w : string) :
  w ∈ raw_text → (w, occurrences w raw_text) ∈ Counter raw_text.
Proof.
  intros Hw. rewrite <-Counter_get. by apply counter_get_key, Counter_key.
Qed.

(** X1. The counter has exactly one item per distinct word of the text, and
    the count it stores for a word is the number of occurrences of that
    word; a word absent from the text has no item and reads as [0]. *)
Theorem Counter_counts (raw_text : list string) :
  NoDup (Counter raw_text).*1 ∧
  (∀ w n, (w, n) ∈ Counter raw_text ↔ w ∈ raw_text ∧ n = occurrences w raw_text) ∧
  (∀ w, counter_get (Counter raw_text) w = occurrences w raw_text).
Proof.
  split; [apply Counter_NoDup|]. split; [|apply Counter_get].
  intros w n. split.
  - intros Hin. split; [|by apply Counter_item].
    apply Counter_key. by apply (list_elem_of_fmap_2' fst _ (w, n)).
  - intros [Hw ->]. by apply Counter_item_of.
Qed.

Section selection.
Implicit Types (c s : list (string * nat)) (n : nat).

Lemma sorted_desc_StronglySorted c :
  StronglySorted (λ a b, (b.2 ≤ a.2)%nat) (sorted_desc c).
Proof.
  apply Sorted_StronglySorted; [|apply sorted_desc_Sorted].
  intros x y z Hxy Hyz. cbn in *. lia.
Qed.

(** In a list sorted by decreasing count, the items before a cut have
    counts at least as large as the items after it. *)
Lemma StronglySorted_take_drop s n x y :
  StronglySorted (λ a b, (b.2 ≤ a.2)%nat) s →
  x ∈ take n s → y ∈ drop n s → (y.2 ≤ x.2)%nat.
Proof.
  intros Hs. revert n. induction Hs as [|a s Hs IH Ha]; intros n.
  - rewrite take_nil. by intros ?%elem_of_nil.
  - destruct n as [|n]; cbn; [by intros ?%elem_of_nil|].
    intros [->|Hx]%elem_of_cons Hy.
    + rewrite Forall_forall in Ha. apply Ha.
      eapply elem_of_sublist; [done|apply sublist_drop].
    + by eapply IH.
Qed.
End selection.

Lemma vocab_Ok_inv `{HashOrder} (raw_text : list string) (K : Z) (v : list string) :
  vocab raw_text K = Ok v →
  most_common (raw_text_count raw_text) K ≠ [] ∧
  v = set_iter (most_common (raw_text_count raw_text) K).*1.
Proof.
  unfold vocab. destruct (most_common _ K) as [|p ps]; [done|].
  cbn [zip_star_0 mbind result_bind mret result_ret]. by intros [= <-].
Qed.

Lemma vocab_Ok_nonempty `{HashOrder} (raw_text : list string) (K : Z) (v : list string) :
  vocab raw_text K = Ok v → raw_text ≠ [] ∧ 1 ≤ K.
Proof.
  intros [Hmc _]%vocab_Ok_inv. split.
  - intros ->. apply Hmc. unfold most_common. rewrite raw_text_count_nil. apply take_nil.
  - destruct (Z.le_gt_cases K 0) as [HK|]; [|lia].
    destruct Hmc. by apply most_common_nonpos.
Qed.

(** The vocabulary is a cut of the items of the counter, sorted by
    decreasing count, whatever the order in which the dict lists them. *)
Lemma vocab_cut `{HashOrder} (raw_text : list string) (K : Z) (v : list string) :
  vocab raw_text K = Ok v →
  ∃ (s : list (string * nat)) (k : nat),
    StronglySorted (λ a b, (b.2 ≤ a.2)%nat) s ∧
    (∀ w n, (w, n) ∈ s ↔ w ∈ raw_text ∧ n = occurrences w raw_text) ∧
    (∀ w, w ∈ v ↔ (w, occurrences w raw_text) ∈ take k s).
Proof.
  intros [_ ->]%vocab_Ok_inv. unfold most_common.
  exists (sorted_desc (raw_text_count raw_text)), (Z.to_nat K).
  set (s := sorted_desc (raw_text_count raw_text)).
  assert (s ≡ₚ Counter raw_text) as Hperm.
  { unfold s. by rewrite sorted_desc_Permutation, raw_text_count_Permutation. }
  assert (∀ w n, (w, n) ∈ s ↔ w ∈ raw_text ∧ n = occurrences w raw_text) as Hitems.
  { intros w n. rewrite Hperm. split.
    - intros Hin. split; [|by apply Counter_item].
      apply Counter_key. by apply (list_elem_of_fmap_2' fst _ (w, n)).
    - intros [Hw ->]. by apply Counter_item_of. }
  split; [apply sorted_desc_StronglySorted|]. split; [done|].
  intros w. rewrite set_iter_perm, elem_of_remove_dups, list_elem_of_fmap. split.
  - intros ([w' n] & -> & Hin). cbn.
    assert ((w', n) ∈ s) as Hs by (eapply elem_of_sublist; [done|apply sublist_take]).
    apply Hitems in Hs as [_ ->]. done.
  - intros Hin. by exists (w, occurrences w raw_text).
Qed.

(** X2. The vocabulary holds most frequent words: a word of the text that
    was not selected never occurs more often than a selected one, whatever
    the order in which the dict and the set are iterated. *)
Theorem vocab_most_frequent `{HashOrder} (raw_text : list string) (K : Z)
    (v : list string) (w u : string) :
  vocab raw_text K = Ok v → w ∈ v → u ∈ raw_text → u ∉ v →
  (occurrences u raw_text ≤ occurrences w raw_text)%nat.
Proof.
  intros (s & k & Hsorted & Hitems & Hv)%vocab_cut Hw Hu Hnu.
  apply Hv in Hw.
  assert ((u, occurrences u raw_text) ∈ s) as Hus by (by apply Hitems).
  rewrite <-(take_drop k s) in Hus. apply elem_of_app in Hus as [Hus|Hus].
  { destruct Hnu. by apply Hv. }
  apply (StronglySorted_take_drop s k _ _ Hsorted Hw Hus).
Qed.

Lemma vocab_most_frequent_witness :
  (occurrences "b" ["a"; "b"; "a"; "c"; "a"; "c"]%string
   ≤ occurrences "c" ["a"; "b"; "a"; "c"; "a"; "c"]%string)%nat.
Proof.
  apply (@vocab_most_frequent reversed_order
           ["a"; "b"; "a"; "c"; "a"; "c"]%string 2 ["c"; "a"]%string).
  - vm_compute. reflexivity.
  - left.
  - right. left.
  - intros Hb. repeat (apply elem_of_cons in Hb as [Hb|Hb]; [discriminate|]).
    by apply elem_of_nil in Hb.
Defined.

Lemma text_all (raw_text v : list string) :
  (∀ w, w ∈ raw_text → w ∈ v) → text raw_text v = raw_text.
Proof.
  intros Hall. unfold text. apply filter_all. by apply Forall_forall.
Qed.

Lemma text_Permutation (raw_text v1 v2 : list string) :
  v1 ≡ₚ v2 → text raw_text v1 = text raw_text v2.
Proof.
  intros Hperm. unfold text. apply list_filter_iff. intros w. by rewrite Hperm.
Qed.

Lemma distinct_tokens_pos (raw_text : list string) :
  raw_text ≠ [] → (0 < distinct_tokens raw_text)%nat.
Proof.
  intros Hne. unfold distinct_tokens. destruct raw_text as [|w l]; [done|].
  assert (w ∈ remove_dups (w :: l)) as Hw by (apply elem_of_remove_dups; left).
  destruct (remove_dups (w :: l)); [by apply elem_of_nil in Hw|]. cbn [length]. lia.
Qed.

(** A size that reaches the number of distinct words selects them all. *)
Lemma most_common_all `{HashOrder} (raw_text : list string) (K : Z) :
  Z.of_nat (distinct_tokens raw_text) ≤ K →
  (most_common (raw_text_count raw_text) K).*1 ≡ₚ remove_dups raw_text.
Proof.
  intros HK. unfold distinct_tokens in HK. unfold most_common.
  rewrite take_ge, sorted_desc_Permutation; [apply raw_text_count_keys|].
  rewrite sorted_desc_Permutation, <-(length_fmap fst), raw_text_count_keys. lia.
Qed.

(** X3. When the requested size is at least the number of distinct words of
    a non-empty text, every distinct word is selected and the filter leaves
    the text unchanged. *)
Theorem vocab_covers_text `{HashOrder} (raw_text : list string) (K : Z) :
  raw_text ≠ [] → Z.of_nat (distinct_tokens raw_text) ≤ K →
  ∃ v, vocab raw_text K = Ok v ∧ v ≡ₚ remove_dups raw_text ∧
       text raw_text v = raw_text.
Proof.
  intros Hne HK. pose proof (distinct_tokens_pos raw_text Hne) as Hpos.
  destruct (vocab_Ok raw_text K Hne) as (v & Hv & Hnd & Hperm & Hsize); [lia|].
  assert (v ≡ₚ remove_dups raw_text) as Hall.
  { rewrite Hperm. by apply most_common_all. }
  exists v. split_and!; [done..|].
  apply text_all. intros w Hw. rewrite Hall. by apply elem_of_remove_dups.
Qed.

Lemma vocab_covers_text_witness :
  ∃ v, notebook_vocab (H := insertion_order) aba = Ok v
       ∧ v ≡ₚ remove_dups aba ∧ text aba v = aba.
Proof.
  apply (@vocab_covers_text insertion_order aba 1000); [done|].
  vm_compute. discriminate.
Defined.

(** X4. The vocabulary cell fails exactly on an empty text or a requested
    size that is not positive, and then always with [IndexError]. *)
Theorem vocab_Raise_iff `{HashOrder} (raw_text : list string) (K : Z) (e : exn) :
  vocab raw_text K = Raise e ↔ (raw_text = [] ∨ K ≤ 0) ∧ e = IndexError.
Proof.
  split.
  - intros Hraise. split.
    + destruct raw_text as [|w l]; [by left|]. right.
      destruct (Z.le_gt_cases K 0) as [|HK]; [done|].
      destruct (vocab_Ok (w :: l) K) as (v & Hv & _); [done|lia|]. congruence.
    + unfold vocab in Hraise. destruct (most_common _ K); [|done].
      cbn in Hraise. congruence.
  - intros [[->|HK] ->]; unfold vocab.
    + unfold most_common. rewrite raw_text_count_nil.
      cbn [sorted_desc foldr]. by rewrite take_nil.
    + by rewrite most_common_nonpos.
Qed.

(** X5. Filtering is stable: the vocabulary computed again, with the same
    size, from the filtered text selects the same words, and filtering the
    filtered text changes nothing. *)
Theorem vocab_of_filtered_text `{HashOrder} (raw_text : list string) (K : Z)
    (v : list string) :
  vocab raw_text K = Ok v →
  ∃ v', vocab (text raw_text v) K = Ok v' ∧ v' ≡ₚ v ∧
        text (text raw_text v) v' = text raw_text v.
Proof.
  intros Hv.
  destruct (vocab_Ok_nonempty raw_text K v Hv) as [Hne HK].
  destruct (vocab_Ok raw_text K Hne HK) as (v0 & Hv0 & Hnd & Hperm & Hsize).
  assert (v0 = v) as -> by congruence.
  assert (∀ w, w ∈ v → w ∈ raw_text) as Hsub.
  { intros w Hw. rewrite Hperm in Hw. apply most_common_elem_of in Hw.
    rewrite raw_text_count_keys in Hw. by rewrite elem_of_remove_dups in Hw. }
  assert (remove_dups (text raw_text v) ≡ₚ v) as Hdistinct.
  { apply NoDup_Permutation; [apply NoDup_remove_dups|done|].
    intros w. rewrite elem_of_remove_dups. unfold text.
    rewrite list_elem_of_filter. split; [tauto|]. intros Hw. split; [done|by apply Hsub]. }
  pose proof (distinct_tokens_pos raw_text Hne) as Hpos.
  assert (Z.of_nat (distinct_tokens (text raw_text v)) ≤ K) as HK'.
  { unfold distinct_tokens. rewrite Hdistinct. unfold vocab_size in Hsize. lia. }
  destruct (vocab_Ok (text raw_text v) K) as (v' & Hv' & _ & Hperm' & _); [|done|].
  { intros Hnil. assert (v ≡ₚ []) as Hv_nil by (by rewrite <-Hdistinct, Hnil).
    apply Permutation_nil_r in Hv_nil. subst v.
    unfold vocab_size in Hsize. unfold distinct_tokens in Hpos.
    cbn [length] in Hsize. lia. }
  assert (v' ≡ₚ v) as Hsame.
  { rewrite Hperm'. rewrite most_common_all by done. done. }
  exists v'. split; [done|]. split; [done|].
  apply text_all. intros w Hw. rewrite Hsame.
  unfold text in Hw. by apply list_elem_of_filter in Hw as [? _].
Qed.

Lemma vocab_of_filtered_text_witness :
  ∃ v', @vocab insertion_order (text axcaycz ["a"; "c"]%string) 2 = Ok v'
        ∧ v' ≡ₚ ["a"; "c"]%string
        ∧ text (text axcaycz ["a"; "c"]%string) v' = text axcaycz ["a"; "c"]%string.
Proof.
  apply (@vocab_of_filtered_text insertion_order axcaycz 2 ["a"; "c"]%string).
  vm_compute. reflexivity.
Defined.

(** ** Translating words to ids *)

Lemma getitem_Ok_iff (d : gmap string nat) (w : string) (i : nat) :
  getitem d w = Ok i ↔ d !! w = Some i.
Proof. unfold getitem. destruct (d !! w); split; congruence. Qed.

Lemma getitem_Raise_iff (d : gmap string nat) (w : string) (e : exn) :
  getitem d w = Raise e ↔ d !! w = None ∧ e = KeyError.
Proof.
  unfold getitem. destruct (d !! w); split; try congruence.
  - by intros [? _].
  - intros [= <-]. done.
  - by intros [_ ->].
Qed.

Lemma make_context_vector_Ok_inv (context : list string) (d : gmap string nat)
    (ids : list nat) :
  make_context_vector context d = Ok ids →
  Forall2 (λ w i, d !! w = Some i) context ids.
Proof.
  unfold make_context_vector. intros Hids%mapM_Ok_inv.
  eapply Forall2_impl; [done|]. intros w i. by rewrite getitem_Ok_iff.
Qed.

Lemma make_context_vector_Raise_inv (context : list string) (d : gmap string nat)
    (e : exn) :
  make_context_vector context d = Raise e →
  e = KeyError ∧ ∃ w, w ∈ context ∧ d !! w = None.
Proof.
  unfold make_context_vector.
  intros (w & Hw & [Hnone ->]%getitem_Raise_iff)%mapM_Raise. eauto.
Qed.

(** X6. [make_context_vector] returns a list of ids exactly when every word
    of the context is a key of the dict, and then the ids are those of the
    words, position by position; otherwise it raises [KeyError] and nothing
    else. *)
Theorem make_context_vector_spec (context : list string) (d : gmap string nat) :
  (∀ ids, make_context_vector context d = Ok ids
          ↔ Forall2 (λ w i, d !! w = Some i) context ids) ∧
  (∀ e, make_context_vector context d = Raise e
        ↔ e = KeyError ∧ ∃ w, w ∈ context ∧ d !! w = None).
Proof.
  split.
  - intros ids. split; [apply make_context_vector_Ok_inv|].
    intros Hall. apply mapM_Ok. eapply Forall2_impl; [done|].
    intros w i. by rewrite getitem_Ok_iff.
  - intros e. split; [apply make_context_vector_Raise_inv|].
    intros [-> (w & Hw & Hnone)].
    destruct (make_context_vector context d) as [ids|e] eqn:Hres.
    + apply make_context_vector_Ok_inv in Hres.
      apply list_elem_of_lookup in Hw as [k Hk].
      destruct (Forall2_lookup_l _ _ _ _ _ Hres Hk) as (i & _ & Hi). congruence.
    + by apply make_context_vector_Raise_inv in Hres as [-> _].
Qed.

(** X7. Round trip through the word index: for a context made of words of a
    duplicate-free vocabulary, [make_context_vector] succeeds, every id it
    returns is below the size of the vocabulary, and reading the vocabulary
    at these ids gives the context back. *)
Theorem make_context_vector_round_trip (context v : list string) :
  NoDup v → (∀ w, w ∈ context → w ∈ v) →
  ∃ ids, make_context_vector context (word_to_ix v) = Ok ids ∧
         Forall (λ i, (i < vocab_size v)%nat) ids ∧
         (λ i, v !! i) <$> ids = Some <$> context.
Proof.
  intros Hnd. induction context as [|w context IH]; intros Hsub.
  - exists []. by repeat split.
  - destruct IH as (ids & Hids & Hlt & Hback).
    { intros u Hu. apply Hsub. by right. }
    assert (w ∈ v) as [i Hi]%list_elem_of_lookup by (apply Hsub; left).
    exists (i :: ids). unfold make_context_vector in *. cbn.
    rewrite (proj2 (getitem_Ok_iff _ _ _) (proj2 (word_to_ix_lookup v w i Hnd) Hi)).
    cbn. rewrite Hids. cbn. split_and!; [done| |by rewrite Hi, Hback].
    constructor; [|done]. by eapply lookup_lt_Some.
Qed.

Lemma make_context_vector_round_trip_witness :
  ∃ ids, make_context_vector ["d"; "a"; "d"]%string (word_to_ix abcde) = Ok ids ∧
         Forall (λ i, (i < vocab_size abcde)%nat) ids ∧
         (λ i, abcde !! i) <$> ids = Some <$> ["d"; "a"; "d"]%string.
Proof.
  apply make_context_vector_round_trip.
  - apply (bool_decide_unpack _). vm_compute. reflexivity.
  - intros w Hw. repeat (apply elem_of_cons in Hw as [->|Hw]);
      [apply (bool_decide_unpack _); vm_compute; reflexivity..
      |by apply elem_of_nil in Hw].
Defined.

(** ** The dataset loop without assumption on the dict *)

Lemma offsets_length (W : Z) : length (offsets W) = (2 * Z.to_nat W)%nat.
Proof.
  destruct (Z.le_gt_cases 0 W) as [HW|HW].
  - rewrite offsets_split, length_app, !length_seqZ by done. lia.
  - unfold offsets, range. rewrite seqZ_nil by lia. cbn. lia.
Qed.

(** What a successful turn of the loop appends. *)
Lemma dataset_step_Ok_inv (text : list string) (d : gmap string nat) (W : Z)
    (XY XY' : list (list nat) * list nat) (i : Z) :
  dataset_step text d W XY i = Ok XY' →
  ∃ row y, XY' = (XY.1 ++ [row], XY.2 ++ [y]) ∧
    length row = (2 * Z.to_nat W)%nat ∧
    Forall (λ id, ∃ w, w ∈ text ∧ d !! w = Some id) row ∧
    ∃ w, w ∈ text ∧ d !! w = Some y.
Proof.
  unfold dataset_step.
  destruct (mapM _ (offsets W)) as [context|e] eqn:Hctx; cbn [mbind result_bind]; [|done].
  destruct (index text i) as [target|e] eqn:Htgt; cbn [mbind result_bind]; [|done].
  destruct (make_context_vector context d) as [row|e] eqn:Hrow;
    cbn [mbind result_bind]; [|done].
  destruct (getitem d target) as [y|e] eqn:Hy; cbn [mbind result_bind]; [|done].
  intros [= <-]. exists row, y. apply mapM_Ok_inv in Hctx.
  apply make_context_vector_Ok_inv in Hrow. split_and!.
  - done.
  - rewrite <-(Forall2_length _ _ _ Hrow), <-(Forall2_length _ _ _ Hctx).
    apply offsets_length.
  - apply Forall_forall. intros id [k Hk]%list_elem_of_lookup.
    destruct (Forall2_lookup_r _ _ _ _ _ Hrow Hk) as (w & Hw & Hid).
    destruct (Forall2_lookup_r _ _ _ _ _ Hctx Hw) as (j & _ & Hj).
    exists w. split; [by eapply index_Ok_elem_of|done].
  - exists target. split; [by eapply index_Ok_elem_of|by apply getitem_Ok_iff].
Qed.

Lemma foldM_dataset_step_inv (text : list string) (d : gmap string nat) (W : Z)
    (XY XY' : list (list nat) * list nat) (centres : list Z) :
  foldM (dataset_step text d W) XY centres = Ok XY' →
  ∃ rows ys, XY' = (XY.1 ++ rows, XY.2 ++ ys) ∧
    length rows = length centres ∧ length ys = length centres ∧
    Forall (λ row, length row = (2 * Z.to_nat W)%nat ∧
                   Forall (λ id, ∃ w, w ∈ text ∧ d !! w = Some id) row) rows ∧
    Forall (λ y, ∃ w, w ∈ text ∧ d !! w = Some y) ys.
Proof.
  revert XY. induction centres as [|i centres IH]; intros XY; cbn [foldM].
  - intros [= <-]. exists [], []. rewrite !app_nil_r. by destruct XY.
  - destruct (dataset_step text d W XY i) as [XY1|e] eqn:Hstep;
      cbn [mbind result_bind]; [|done].
    apply dataset_step_Ok_inv in Hstep as (row & y & -> & Hlen & Hrow & Hy).
    intros (rows & ys & -> & Hrows & Hys & Hall & Hally)%IH.
    exists (row :: rows), (y :: ys). cbn [fst snd length].
    rewrite <-!app_assoc. split_and!; [done|lia|lia| |].
    + by constructor.
    + by constructor.
Qed.

(** X8. Whenever the loop returns, whatever the dict and the radius, it
    returns as many targets as rows, one per centre of the range, and every
    row has exactly [2W] ids (none for a negative radius). *)
Theorem dataset_shape (text : list string) (d : gmap string nat) (W : Z)
    (X : list (list nat)) (Y : list nat) :
  dataset text d W = Ok (X, Y) →
  length X = Z.to_nat (Z.of_nat (length text) - 2 * W) ∧
  length Y = length X ∧
  Forall (λ row, length row = (2 * Z.to_nat W)%nat) X.
Proof.
  unfold dataset. intros (rows & ys & [= -> ->] & Hrows & Hys & Hall & _)%foldM_dataset_step_inv.
  cbn. unfold range in *. rewrite length_seqZ in *. split_and!; [lia..|].
  eapply Forall_impl; [done|]. by intros row [? _].
Qed.

Lemma dataset_shape_witness :
  length [[0; 2]; [1; 3]; [2; 4]]%nat = Z.to_nat (Z.of_nat (length abcde) - 2 * 1) ∧
  length [1; 2; 3]%nat = length [[0; 2]; [1; 3]; [2; 4]]%nat ∧
  Forall (λ row, length row = (2 * Z.to_nat 1)%nat) [[0; 2]; [1; 3]; [2; 4]]%nat.
Proof. apply (dataset_shape abcde abcde_ids 1). vm_compute. reflexivity. Defined.

(** X9. Every id produced by the pipeline, in a context or as a target, is
    below the size of the vocabulary: the dataset only holds valid positions
    of a table with [vocab_size] rows. *)
Theorem pipeline_ids_in_range `{HashOrder} (raw_text : list string) (K W : Z)
    (X : list (list nat)) (Y : list nat) :
  pipeline raw_text K W = Ok (X, Y) →
  ∃ v, vocab raw_text K = Ok v ∧
       Forall (Forall (λ id, (id < vocab_size v)%nat)) X ∧
       Forall (λ id, (id < vocab_size v)%nat) Y.
Proof.
  unfold pipeline. destruct (vocab raw_text K) as [v|e] eqn:Hv;
    cbn [mbind result_bind]; [|done].
  intros Hd. exists v. split; [done|].
  assert (NoDup v) as Hnd.
  { destruct (vocab_Ok_nonempty raw_text K v Hv) as [Hne HK].
    destruct (vocab_Ok raw_text K Hne HK) as (v0 & Hv0 & Hnd & _). congruence. }
  assert (∀ id, (∃ w, w ∈ text raw_text v ∧ word_to_ix v !! w = Some id)
                → (id < vocab_size v)%nat) as Hlt.
  { intros id (w & _ & Hid). apply word_to_ix_lookup in Hid; [|done].
    by eapply lookup_lt_Some. }
  unfold dataset in Hd.
  apply foldM_dataset_step_inv in Hd as (rows & ys & [= -> ->] & _ & _ & Hall & Hally).
  cbn. split.
  - eapply Forall_impl; [done|]. intros row [_ Hrow].
    eapply Forall_impl; [done|]. done.
  - eapply Forall_impl; [done|]. done.
Qed.

Lemma pipeline_ids_in_range_witness :
  ∃ v, @vocab reversed_order aba 2 = Ok v ∧
       Forall (Forall (λ id, (id < vocab_size v)%nat)) [[1; 1]]%nat ∧
       Forall (λ id, (id < vocab_size v)%nat) [0]%nat.
Proof.
  apply (@pipeline_ids_in_range reversed_order aba 2 1). vm_compute. reflexivity.
Defined.


Section loop_any_dict.
Variables (text : list string) (d : gmap string nat) (W : Z).
Hypothesis radius : 0 ≤ W.

(** At a centre with [W] words on each side no read leaves the text: the
    turn is the translation of the window and of the centre. *)
Lemma dataset_step_in_range XY i :
  W ≤ i → i + W < Z.of_nat (length text) →
  ∃ target, text !! Z.to_nat i = Some target ∧
    dataset_step text d W XY i
    = (row ← make_context_vector (window_words text W i) d;
       y ← getitem d target;
       mret (XY.1 ++ [row], XY.2 ++ [y])).
Proof.
  intros Hlo Hhi.
  destruct (lookup_lt_is_Some_2 text (Z.to_nat i)) as [target Htarget]; [lia|].
  exists target. split; [done|]. unfold dataset_step.
  rewrite offsets_split, mapM_app by done.
  rewrite (mapM_index_seqZ text i (- W) W) by lia.
  rewrite (mapM_index_seqZ text i 1 W) by lia.
  cbn [mbind result_bind mret result_ret].
  rewrite (index_lookup text i target) by (done || lia).
  cbn [mbind result_bind]. unfold window_words.
  by replace (i + - W) with (i - W) by lia.
Qed.

Lemma window_words_elem_of i (p : nat) w :
  W ≤ i → i + W < Z.of_nat (length text) →
  text !! p = Some w →
  (Z.to_nat i - Z.to_nat W ≤ p ≤ Z.to_nat i + Z.to_nat W)%nat →
  p ≠ Z.to_nat i →
  w ∈ window_words text W i.
Proof.
  intros Hlo Hhi Hp Hnear Hne. unfold window_words. apply elem_of_app.
  destruct (decide (p < Z.to_nat i)%nat) as [Hlt|Hge].
  - left. apply list_elem_of_lookup. exists (p - Z.to_nat (i - W))%nat.
    rewrite lookup_take_lt, lookup_drop by lia.
    by replace (Z.to_nat (i - W) + (p - Z.to_nat (i - W)))%nat with p by lia.
  - right. apply list_elem_of_lookup. exists (p - Z.to_nat (i + 1))%nat.
    rewrite lookup_take_lt, lookup_drop by lia.
    by replace (Z.to_nat (i + 1) + (p - Z.to_nat (i + 1)))%nat with p by lia.
Qed.

Lemma window_words_sublist i w : w ∈ window_words text W i → w ∈ text.
Proof.
  unfold window_words. intros [Hw|Hw]%elem_of_app;
    (eapply elem_of_sublist; [done|]; etrans; [apply sublist_take|apply sublist_drop]).
Qed.

Lemma dataset_step_in_range_Raise XY i e :
  W ≤ i → i + W < Z.of_nat (length text) →
  dataset_step text d W XY i = Raise e →
  e = KeyError ∧ ∃ w, w ∈ text ∧ d !! w = None.
Proof.
  intros Hlo Hhi. destruct (dataset_step_in_range XY i Hlo Hhi) as (target & Htarget & ->).
  destruct (make_context_vector _ d) as [row|e'] eqn:Hrow; cbn [mbind result_bind].
  - destruct (getitem d target) as [y|e'] eqn:Hy; cbn [mbind result_bind]; [done|].
    intros [= ->]. apply getitem_Raise_iff in Hy as [Hnone ->].
    split; [done|]. exists target. split; [by eapply list_elem_of_lookup_2|done].
  - intros [= ->]. apply make_context_vector_Raise_inv in Hrow as [-> (w & Hw & Hnone)].
    split; [done|]. exists w. split; [by eapply window_words_sublist|done].
Qed.

Lemma dataset_step_in_range_Ok XY XY' i (p : nat) w :
  W ≤ i → i + W < Z.of_nat (length text) →
  dataset_step text d W XY i = Ok XY' →
  text !! p = Some w →
  (Z.to_nat i - Z.to_nat W ≤ p ≤ Z.to_nat i + Z.to_nat W)%nat →
  is_Some (d !! w).
Proof.
  intros Hlo Hhi. destruct (dataset_step_in_range XY i Hlo Hhi) as (target & Htarget & ->).
  destruct (make_context_vector _ d) as [row|e'] eqn:Hrow; cbn [mbind result_bind]; [|done].
  destruct (getitem d target) as [y|e'] eqn:Hy; cbn [mbind result_bind]; [|done].
  intros _ Hp Hnear. destruct (decide (p = Z.to_nat i)) as [->|Hne].
  - apply getitem_Ok_iff in Hy. exists y. congruence.
  - apply make_context_vector_Ok_inv in Hrow.
    pose proof (window_words_elem_of i p w Hlo Hhi Hp Hnear Hne) as [k Hk]%list_elem_of_lookup.
    destruct (Forall2_lookup_l _ _ _ _ _ Hrow Hk) as (id & _ & Hid). by exists id.
Qed.
End loop_any_dict.

Lemma foldM_Ok_elem_of {A S : Type} (f : S → A → result S) (s s' : S)
    (xs : list A) (x : A) :
  foldM f s xs = Ok s' → x ∈ xs → ∃ s1 s2, f s1 x = Ok s2.
Proof.
  revert s. induction xs as [|y xs IH]; intros s; cbn [foldM]; [by intros _ ?%elem_of_nil|].
  destruct (f s y) as [s1|e] eqn:Hy; cbn [mbind result_bind]; [|done].
  intros Hrest [->|Hx]%elem_of_cons; [by exists s, s1|by eapply IH].
Qed.

(** X10. For a radius [W >= 0] the loop fails exactly when the text has at
    least [2W + 1] words and one of them, anywhere in the text, has no id;
    the exception is then [KeyError]. *)
Theorem dataset_Raise_iff (text : list string) (d : gmap string nat) (W : Z) (e : exn) :
  0 ≤ W →
  dataset text d W = Raise e ↔
  e = KeyError ∧ 2 * W + 1 ≤ Z.of_nat (length text) ∧ ∃ w, w ∈ text ∧ d !! w = None.
Proof.
  intros HW.
  assert (∀ e', dataset text d W = Raise e' →
            e' = KeyError ∧ 2 * W + 1 ≤ Z.of_nat (length text) ∧
            ∃ w, w ∈ text ∧ d !! w = None) as Hraise.
  { intros e' (XY & i & Hi & Hstep)%foldM_Raise.
    unfold range in Hi. apply elem_of_seqZ in Hi.
    apply dataset_step_in_range_Raise in Hstep as [-> Hw]; [|lia..].
    split_and!; [done|lia|done]. }
  split; [apply Hraise|]. intros (-> & Hlen & w & [p Hp]%list_elem_of_lookup & Hnone).
  destruct (dataset text d W) as [XY|e'] eqn:Hd.
  2:{ by destruct (Hraise e' eq_refl) as [-> _]. }
  exfalso. pose proof (lookup_lt_Some _ _ _ Hp) as Hplt.
  set (i := Z.max W (Z.min (Z.of_nat p) (Z.of_nat (length text) - W - 1))).
  unfold dataset in Hd.
  destruct (foldM_Ok_elem_of _ _ _ _ i Hd) as (s1 & s2 & Hstep).
  { unfold range. apply elem_of_seqZ. lia. }
  eapply dataset_step_in_range_Ok in Hstep as [id Hid]; [|done|lia|lia|done|lia].
  congruence.
Qed.

Lemma dataset_Raise_iff_witness :
  dataset abcde (word_to_ix abcd) 1 = Raise KeyError ↔
  KeyError = KeyError ∧ 2 * 1 + 1 ≤ Z.of_nat (length abcde)
  ∧ ∃ w, w ∈ abcde ∧ word_to_ix abcd !! w = None.
Proof. apply (dataset_Raise_iff abcde (word_to_ix abcd) 1 KeyError). lia. Defined.

(** ** The pipeline under two iteration orders of the hashed containers *)

Lemma text_known (raw_text v : list string) (w : string) :
  w ∈ text raw_text v → is_Some (word_to_ix v !! w).
Proof.
  intros Hw. apply word_to_ix_is_Some.
  unfold text in Hw. by apply list_elem_of_filter in Hw as [? _].
Qed.

(** Under two vocabularies with the same words the loop builds the same
    dataset up to the renaming of each word's id. *)
Lemma dataset_rename (raw_text v1 v2 : list string) (W : Z) :
  NoDup v1 → NoDup v2 → v1 ≡ₚ v2 → 0 ≤ W →
  ∃ (rename : nat → nat) (X1 : list (list nat)) (Y1 : list nat),
    dataset (text raw_text v1) (word_to_ix v1) W = Ok (X1, Y1) ∧
    dataset (text raw_text v2) (word_to_ix v2) W
    = Ok ((fmap rename : list nat → list nat) <$> X1, rename <$> Y1) ∧
    (∀ w i, word_to_ix v1 !! w = Some i → word_to_ix v2 !! w = Some (rename i)) ∧
    (∀ i j, (i < vocab_size v1)%nat → (j < vocab_size v1)%nat →
            rename i = rename j → i = j).
Proof.
  intros Hnd1 Hnd2 Hperm HW.
  pose proof (text_Permutation raw_text v1 v2 Hperm) as Htext. rewrite <-Htext.
  set (t := text raw_text v1) in *.
  set (rename := λ i, match v1 !! i with
                      | Some w => word_id (word_to_ix v2) w
                      | None => i
                      end).
  assert (∀ w i, word_to_ix v1 !! w = Some i → word_to_ix v2 !! w = Some (rename i))
    as Hrename.
  { intros w i Hi. apply word_to_ix_lookup in Hi; [|done].
    unfold rename. rewrite Hi. unfold word_id.
    destruct (word_to_ix_is_Some v2 w) as [j Hj]; [|by rewrite Hj].
    rewrite <-Hperm. by eapply list_elem_of_lookup_2. }
  assert (∀ w, w ∈ t → word_id (word_to_ix v2) w = rename (word_id (word_to_ix v1) w))
    as Hid.
  { intros w Hw. apply text_known in Hw as [i Hi]. unfold word_id at 2. rewrite Hi. cbn.
    unfold word_id. by rewrite (Hrename w i Hi). }
  assert (∀ w, w ∈ t → is_Some (word_to_ix v1 !! w)) as Hk1
    by (intros w Hw; by apply text_known in Hw).
  assert (∀ w, w ∈ t → is_Some (word_to_ix v2 !! w)) as Hk2
    by (intros w Hw; rewrite Htext in Hw; by apply text_known in Hw).
  rewrite (dataset_Ok t (word_to_ix v1) W Hk1 HW).
  rewrite (dataset_Ok t (word_to_ix v2) W Hk2 HW).
  exists rename. eexists _, _. split; [done|]. split_and!; [|done|].
  - do 2 f_equal.
    + rewrite <-list_fmap_compose. apply list_fmap_ext. intros _ i _. cbn.
      unfold window_row. rewrite <-list_fmap_compose.
      apply list_fmap_ext. intros k w Hk. cbn. apply Hid.
      apply list_elem_of_lookup_2 in Hk.
      change (w ∈ window_words t W i) in Hk. by eapply window_words_sublist.
    + rewrite <-list_fmap_compose. apply list_fmap_ext. intros k i Hi. cbn.
      apply lookup_seqZ in Hi as [-> Hi]. unfold window_target.
      destruct (lookup_lt_is_Some_2 t (Z.to_nat (W + Z.of_nat k))) as [w Hw]; [lia|].
      rewrite Hw. cbn. apply Hid. by eapply list_elem_of_lookup_2.
  - unfold vocab_size. intros i j Hi Hj Hij.
    destruct (lookup_lt_is_Some_2 v1 i Hi) as [wi Hwi].
    destruct (lookup_lt_is_Some_2 v1 j Hj) as [wj Hwj].
    pose proof (Hrename wi i (proj2 (word_to_ix_lookup v1 wi i Hnd1) Hwi)) as Hri.
    pose proof (Hrename wj j (proj2 (word_to_ix_lookup v1 wj j Hnd1) Hwj)) as Hrj.
    rewrite Hij in Hri. apply word_to_ix_lookup in Hri, Hrj; [|done..].
    assert (wi = wj) as -> by congruence.
    exact (NoDup_lookup v1 i j wj Hnd1 Hwi Hwj).
Qed.

(** The loop only returns for a radius that is not negative: otherwise its
    range reaches the position just after the text. *)
Lemma dataset_Ok_radius (text : list string) (d : gmap string nat) (W : Z)
    (XY : list (list nat) * list nat) :
  dataset text d W = Ok XY → 0 ≤ W.
Proof.
  intros Hd. destruct (Z.le_gt_cases 0 W) as [|HW]; [done|]. exfalso.
  unfold dataset in Hd.
  destruct (foldM_Ok_elem_of _ _ _ _ (Z.of_nat (length text)) Hd) as (s1 & s2 & Hstep).
  { unfold range. apply elem_of_seqZ. lia. }
  unfold dataset_step in Hstep.
  destruct (mapM _ (offsets W)) as [context|e]; cbn [mbind result_bind] in Hstep; [|done].
  destruct (index text (Z.of_nat (length text))) as [target|e] eqn:Htarget;
    cbn [mbind result_bind] in Hstep; [|done].
  unfold index in Htarget.
  destruct (Z.ltb_spec (Z.of_nat (length text)) 0); [lia|].
  destruct (Z.ltb_spec (Z.of_nat (length text)) (Z.of_nat (length text))); [lia|].
  by rewrite andb_false_r in Htarget.
Qed.

Lemma vocab_NoDup `{HashOrder} (raw_text : list string) (K : Z) (v : list string) :
  vocab raw_text K = Ok v →
  NoDup v ∧ vocab_size v = (Z.to_nat K `min` distinct_tokens raw_text)%nat.
Proof.
  intros Hv. destruct (vocab_Ok_nonempty raw_text K v Hv) as [Hne HK].
  destruct (vocab_Ok raw_text K Hne HK) as (v0 & Hv0 & Hnd & _ & Hsize).
  assert (v0 = v) as -> by congruence. done.
Qed.



(** X11. Between two runs that select the same vocabulary words, whatever
    the orders in which the dict and the set are iterated, only the ids
    change: the filtered text is the same, and if one run of the pipeline
    returns [(X1, Y1)] the other returns its image under a renaming of the
    ids that is one-to-one on the ids of the vocabulary. *)
Theorem pipeline_orders_rename (h1 h2 : HashOrder) (raw_text : list string)
    (K W : Z) (v1 v2 : list string) (X1 : list (list nat)) (Y1 : list nat) :
  @vocab h1 raw_text K = Ok v1 → @vocab h2 raw_text K = Ok v2 → v1 ≡ₚ v2 →
  @pipeline h1 raw_text K W = Ok (X1, Y1) →
  ∃ rename : nat → nat,
    text raw_text v1 = text raw_text v2 ∧
    @pipeline h2 raw_text K W
    = Ok ((fmap rename : list nat → list nat) <$> X1, rename <$> Y1) ∧
    (∀ w i, word_to_ix v1 !! w = Some i → word_to_ix v2 !! w = Some (rename i)) ∧
    (∀ i j, (i < vocab_size v1)%nat → (j < vocab_size v1)%nat →
            rename i = rename j → i = j).
Proof.
  intros Hv1 Hv2 Hperm. unfold pipeline. rewrite Hv1, Hv2. cbn [mbind result_bind].
  intros Hd. pose proof (dataset_Ok_radius _ _ _ _ Hd) as HW.
  destruct (@vocab_NoDup h1 raw_text K v1 Hv1) as [Hnd1 _].
  destruct (@vocab_NoDup h2 raw_text K v2 Hv2) as [Hnd2 _].
  destruct (dataset_rename raw_text v1 v2 W Hnd1 Hnd2 Hperm HW)
    as (rename & X & Y & Hd1 & Hd2 & Hrename & Hinj).
  rewrite Hd1 in Hd. injection Hd as -> ->.
  exists rename. split; [by apply text_Permutation|]. by split_and!.
Qed.

Lemma pipeline_orders_rename_witness :
  ∃ rename : nat → nat,
    text abacab ["a"; "b"]%string = text abacab ["b"; "a"]%string ∧
    @pipeline reversed_order abacab 2 1
    = Ok ((fmap rename : list nat → list nat) <$> [[0; 0]; [1; 0]; [0; 1]]%nat,
          rename <$> [1; 0; 0]%nat) ∧
    (∀ w i, word_to_ix ["a"; "b"]%string !! w = Some i
            → word_to_ix ["b"; "a"]%string !! w = Some (rename i)) ∧
    (∀ i j, (i < vocab_size ["a"; "b"]%string)%nat
            → (j < vocab_size ["a"; "b"]%string)%nat → rename i = rename j → i = j).
Proof.
  apply (pipeline_orders_rename insertion_order reversed_order abacab 2 1
           ["a"; "b"]%string ["b"; "a"]%string).
  - vm_compute. reflexivity.
  - vm_compute. reflexivity.
  - apply Permutation_swap.
  - vm_compute. reflexivity.
Defined.

(** ** Two runs of the pipeline *)



(** With a tie at the size cut the runs need not agree even up to a
    renaming: on [a b b c a c a] with size 2, where [b] and [c] both occur
    twice, one order of the dict selects [b] and another selects [c], and
    the targets [0 1 1 0 0] and [1 0 1 0 1] for a radius of 0 are not
    renamings of each other. *)
Lemma pipeline_tie_at_cut :
  @vocab insertion_order abbcaca 2 = Ok ["a"; "b"]%string ∧
  @vocab reversed_order abbcaca 2 = Ok ["c"; "a"]%string ∧
  @pipeline insertion_order abbcaca 2 0 = Ok ([[]; []; []; []; []], [0; 1; 1; 0; 0]%nat) ∧
  ¬ ∃ rename : nat → nat,
      @pipeline reversed_order abbcaca 2 0
      = Ok ((fmap rename : list nat → list nat) <$> [[]; []; []; []; []],
            rename <$> [0; 1; 1; 0; 0]%nat).
Proof.
  split_and!; [vm_compute; reflexivity..|].
  intros [rename Hrun]. vm_compute in Hrun. congruence.
Qed.

(** ** The batch generator on other inputs *)

Lemma mapM_ext_elem_of {A B : Type} (f g : A → result B) (l : list A) :
  (∀ x, x ∈ l → f x = g x) → mapM f l = mapM g l.
Proof.
  induction l as [|x l IH]; intros Hfg; [done|]. cbn.
  rewrite (Hfg x) by left. rewrite IH; [done|].
  intros y Hy. apply Hfg. by right.
Qed.

(** A slice of [arange(n)] only holds positions below [n]. *)
Lemma slice_arange_elem_of (n : nat) (a b k : Z) :
  k ∈ slice (arange (Z.of_nat n)) a b → 0 ≤ k < Z.of_nat n.
Proof.
  unfold slice, arange, range. intros Hk.
  assert (k ∈ seqZ 0 (Z.of_nat n - 0)) as Hin.
  { eapply elem_of_sublist; [done|]. etrans; [apply sublist_take|apply sublist_drop]. }
  apply elem_of_seqZ in Hin. lia.
Qed.

Lemma index_in_range {A : Type} (l : list A) (k : Z) :
  0 ≤ k < Z.of_nat (length l) → ∃ x, index l k = Ok x.
Proof.
  intros Hk. destruct (lookup_lt_is_Some_2 l (Z.to_nat k)) as [x Hx]; [lia|].
  exists x. apply index_lookup; [lia|done].
Qed.

Lemma np_take_in_range {A : Type} (rows : list A) (draw : list Z) :
  (∀ k, k ∈ draw → 0 ≤ k < Z.of_nat (length rows)) →
  ∃ out, np_take rows draw = Ok out ∧ length out = length draw.
Proof.
  unfold np_take. induction draw as [|k draw IH]; intros Hin.
  - by exists [].
  - destruct (index_in_range rows k) as [x Hx]; [apply Hin; left|].
    destruct IH as (out & Hout & Hlen); [intros j Hj; apply Hin; by right|].
    exists (x :: out). cbn. rewrite Hx. cbn. rewrite Hout. cbn. by rewrite Hlen.
Qed.

Lemma slice_empty {A : Type} (l : list A) (a b : Z) :
  0 ≤ b → b ≤ a → slice l a b = [].
Proof.
  intros Hb Hba. unfold slice, clamp.
  destruct (Z.ltb_spec a 0), (Z.ltb_spec b 0); try lia.
  replace (Z.to_nat _) with 0%nat by lia. apply take_0.
Qed.

(** With at least as many rows in [Y] as in [X], the generator yields as
    long as [count] is below the number of rows of [X], whatever the batch
    size. *)
Lemma data_batcher_next_Yield_any (X : list (list nat)) (Y : list nat)
    (batch_size count : Z) :
  (length X ≤ length Y)%nat → count < Z.of_nat (length X) →
  ∃ Xb Yb, data_batcher_next X Y batch_size count
           = Yield Xb Yb (count + batch_size) ∧
           length Xb = length Yb ∧
           length Xb = length (slice (arange (Z.of_nat (length X))) count
                                     (Z.min (count + batch_size) (Z.of_nat (length X)))).
Proof.
  intros Hrows Hcount. unfold data_batcher_next.
  destruct (Z.ltb_spec count (Z.of_nat (length X))); [|lia].
  set (draw := slice _ count _).
  destruct (np_take_in_range X draw) as (Xb & -> & HXb).
  { intros k Hk. by apply slice_arange_elem_of in Hk. }
  destruct (np_take_in_range Y draw) as (Yb & -> & HYb).
  { intros k Hk. apply slice_arange_elem_of in Hk. lia. }
  exists Xb, Yb. split; [done|]. split; congruence.
Qed.

(** X12. The generator has no guard on the batch size: for a batch size
    [<= 0] and a non-empty [X] (with at least as many rows in [Y]) it never
    stops and never raises; however often it is asked it yields one more
    batch, and for a batch size of [0] all these batches are empty. *)
Theorem data_batcher_nonpositive (X : list (list nat)) (Y : list nat)
    (batch_size : Z) (fuel : nat) :
  batch_size ≤ 0 → X ≠ [] → (length X ≤ length Y)%nat →
  ∃ batches, data_batcher fuel X Y batch_size = (batches, Suspended) ∧
             length batches = fuel ∧
             (batch_size = 0 → Forall (λ b, b = ([], [])) batches).
Proof.
  intros HB HX Hrows. unfold data_batcher.
  assert (0 < Z.of_nat (length X)) as Hn by (destruct X; [done|cbn; lia]).
  assert (∀ count, count ≤ 0 →
    ∃ batches, data_batcher_from fuel X Y batch_size count = (batches, Suspended) ∧
               length batches = fuel ∧
               (batch_size = 0 → count = 0 → Forall (λ b, b = ([], [])) batches))
    as Hfrom.
  { induction fuel as [|fuel IH]; intros count Hcount; cbn [data_batcher_from].
    - exists []. by repeat split.
    - destruct (data_batcher_next_Yield_any X Y batch_size count)
        as (Xb & Yb & -> & Hlen & HXb); [done|lia|].
      destruct (IH (count + batch_size)) as (bs & -> & Hbs & Hempty); [lia|].
      eexists. split; [done|]. cbn. split; [by rewrite Hbs|].
      intros -> ->. constructor; [|by apply Hempty].
      rewrite slice_empty in HXb by lia.
      destruct Xb, Yb; done. }
  destruct (Hfrom 0) as (bs & ? & ? & ?); [done|]. exists bs. auto.
Qed.

Lemma data_batcher_nonpositive_witness :
  ∃ batches, data_batcher 7 [[1; 2]; [3; 4]]%nat [5; 6]%nat 0 = (batches, Suspended) ∧
             length batches = 7%nat ∧
             (0 = 0 → Forall (λ b, b = ([], [])) batches).
Proof. apply (data_batcher_nonpositive [[1; 2]; [3; 4]]%nat [5; 6]%nat 0 7); [lia|done|done]. Defined.

Lemma index_take {A : Type} (l : list A) (n : nat) (k : Z) :
  (n ≤ length l)%nat → 0 ≤ k < Z.of_nat n → index (take n l) k = index l k.
Proof.
  intros Hn Hk. destruct (lookup_lt_is_Some_2 l (Z.to_nat k)) as [x Hx]; [lia|].
  rewrite (index_lookup l k x) by (lia || done).
  apply index_lookup; [lia|]. rewrite lookup_take_lt by lia. done.
Qed.

(** The rows of [Y] beyond the number of rows of [X] are never read. *)
Lemma data_batcher_from_take (fuel : nat) (X : list (list nat)) (Y : list nat)
    (batch_size count : Z) :
  (length X ≤ length Y)%nat →
  data_batcher_from fuel X Y batch_size count
  = data_batcher_from fuel X (take (length X) Y) batch_size count.
Proof.
  intros Hrows. revert count. induction fuel as [|fuel IH]; intros count; [done|].
  cbn [data_batcher_from].
  assert (data_batcher_next X Y batch_size count
          = data_batcher_next X (take (length X) Y) batch_size count) as ->.
  { unfold data_batcher_next. destruct (count <? _); [|done].
    destruct (np_take X _); [|done]. unfold np_take.
    rewrite (mapM_ext_elem_of (index (take (length X) Y)) (index Y)); [done|].
    intros k Hk%slice_arange_elem_of. by apply index_take. }
  destruct (data_batcher_next _ _ _ _); [|done..]. by rewrite IH.
Qed.

(** X13. The number of rows of [X] alone drives the generator: when [Y]
    has more rows than [X], the batches cover [X] and the first
    [len(X)] rows of [Y]; the remaining rows of [Y] are never yielded. *)
Theorem data_batcher_longer_Y (X : list (list nat)) (Y : list nat)
    (batch_size : Z) (fuel : nat) :
  1 ≤ batch_size → (length X ≤ length Y)%nat → (length X < fuel)%nat →
  ∃ batches, data_batcher fuel X Y batch_size = (batches, Exhausted) ∧
             concat batches.*1 = X ∧
             concat batches.*2 = take (length X) Y.
Proof.
  intros HB Hrows Hfuel. unfold data_batcher.
  rewrite data_batcher_from_take by done.
  destruct (data_batcher_from_spec X (take (length X) Y) batch_size HB) with fuel 0%nat
    as (bs & Hrun & HX & HY & _); [rewrite length_take; lia|lia|].
  exists bs. by split_and!.
Qed.

Lemma data_batcher_longer_Y_witness :
  ∃ batches, data_batcher 4 [[1; 2]; [3; 4]; [5; 6]]%nat [7; 8; 9; 10; 11]%nat 2
             = (batches, Exhausted) ∧
             concat batches.*1 = [[1; 2]; [3; 4]; [5; 6]]%nat ∧
             concat batches.*2 = take (length [[1; 2]; [3; 4]; [5; 6]]%nat) [7; 8; 9; 10; 11]%nat.
Proof.
  apply (data_batcher_longer_Y [[1; 2]; [3; 4]; [5; 6]]%nat [7; 8; 9; 10; 11]%nat 2 4);
    [lia|cbn; lia|cbn; lia].
Defined.

Section batcher_short_Y.
Variables (X : list (list nat)) (Y : list nat) (batch_size : Z).
Hypothesis positive : 1 ≤ batch_size.
Hypothesis fewer_rows : (length Y < length X)%nat.

Local Abbreviation B := (Z.to_nat batch_size).

Lemma data_batcher_next_full (c : nat) :
  (c + B ≤ length Y)%nat →
  data_batcher_next X Y batch_size (Z.of_nat c)
  = Yield (take B (drop c X)) (take B (drop c Y)) (Z.of_nat (c + B)).
Proof.
  intros Hc. unfold data_batcher_next.
  destruct (Z.ltb_spec (Z.of_nat c) (Z.of_nat (length X))); [|lia].
  rewrite slice_arange by lia. rewrite !np_take_seqZ by lia.
  rewrite Nat2Z.id.
  replace (Z.to_nat (Z.min (Z.of_nat c + batch_size) (Z.of_nat (length X)) - Z.of_nat c))
    with B by lia.
  f_equal. lia.
Qed.

Lemma data_batcher_next_Throw (c : nat) :
  (c ≤ length Y)%nat → (length Y < c + B)%nat →
  data_batcher_next X Y batch_size (Z.of_nat c) = Throw IndexError.
Proof.
  intros Hlo Hhi. unfold data_batcher_next.
  destruct (Z.ltb_spec (Z.of_nat c) (Z.of_nat (length X))); [|lia].
  rewrite slice_arange by lia. rewrite (np_take_seqZ X) by lia.
  destruct (np_take Y _) as [Yb|e] eqn:HY.
  - exfalso. apply mapM_Ok_inv in HY.
    assert (seqZ (Z.of_nat c)
              (Z.min (Z.of_nat c + batch_size) (Z.of_nat (length X)) - Z.of_nat c)
            !! (length Y - c)%nat = Some (Z.of_nat (length Y))) as Hk.
    { apply lookup_seqZ. lia. }
    destruct (Forall2_lookup_l _ _ _ _ _ HY Hk) as (y & _ & Hy).
    unfold index in Hy. destruct (Z.ltb_spec (Z.of_nat (length Y)) 0); [lia|].
    destruct (Z.ltb_spec (Z.of_nat (length Y)) (Z.of_nat (length Y))); [lia|].
    by rewrite andb_false_r in Hy.
  - apply mapM_Raise in HY as (k & _ & ->%index_Raise). done.
Qed.

Lemma data_batcher_from_short (fuel c : nat) :
  (c ≤ length Y)%nat → ((length Y - c) / B < fuel)%nat →
  ∃ batches,
    data_batcher_from fuel X Y batch_size (Z.of_nat c) = (batches, Raised IndexError) ∧
    length batches = ((length Y - c) / B)%nat ∧
    ∀ k b, batches !! k = Some b →
      b = (take B (drop (c + k * B) X), take B (drop (c + k * B) Y)).
Proof.
  revert c. induction fuel as [|fuel IH]; intros c Hc Hfuel; [lia|].
  cbn [data_batcher_from].
  destruct (decide (c + B ≤ length Y)%nat) as [Hfull|Hpart].
  - rewrite data_batcher_next_full by done.
    assert ((length Y - c) / B = S ((length Y - (c + B)) / B))%nat as Hdiv.
    { replace (length Y - c)%nat with ((length Y - (c + B)) + 1 * B)%nat by lia.
      rewrite Nat.div_add by lia. lia. }
    destruct (IH (c + B)%nat) as (bs & -> & Hlen & Hbs); [lia..|].
    eexists. split; [done|]. cbn [fst snd length]. split; [lia|].
    intros [|k] b; cbn.
    + intros [= <-]. by rewrite Nat.add_0_r.
    + intros ->%Hbs. by replace (c + (B + k * B))%nat with (c + B + k * B)%nat by lia.
  - rewrite data_batcher_next_Throw by lia. exists []. split; [done|].
    split; [|done]. cbn. symmetry. apply Nat.div_small. lia.
Qed.
End batcher_short_Y.

(** X14. When [Y] has fewer rows than [X] (and the batch size is at least
    1) the generator yields the batches that fit in [Y], that is
    [len(Y) // batch_size] full ones, and raises [IndexError] on the next
    request. *)
Theorem data_batcher_shorter_Y (X : list (list nat)) (Y : list nat)
    (batch_size : Z) (fuel : nat) :
  1 ≤ batch_size → (length Y < length X)%nat →
  (length Y / Z.to_nat batch_size < fuel)%nat →
  ∃ batches,
    data_batcher fuel X Y batch_size = (batches, Raised IndexError) ∧
    length batches = (length Y / Z.to_nat batch_size)%nat ∧
    ∀ k b, batches !! k = Some b → b = batch_at X Y (Z.to_nat batch_size) k.
Proof.
  intros HB Hrows Hfuel.
  destruct (data_batcher_from_short X Y batch_size HB Hrows fuel 0)
    as (bs & Hrun & Hlen & Hbs); [lia|by rewrite Nat.sub_0_r|].
  exists bs. split; [done|]. split; [by rewrite Nat.sub_0_r in Hlen|].
  intros k b Hb. by apply Hbs in Hb.
Qed.

Lemma data_batcher_shorter_Y_witness :
  ∃ batches,
    data_batcher 2 [[1; 2]; [3; 4]; [5; 6]; [7; 8]]%nat [9; 10; 11]%nat 2
    = (batches, Raised IndexError) ∧
    length batches = (length [9; 10; 11]%nat / Z.to_nat 2)%nat ∧
    ∀ k b, batches !! k = Some b
           → b = batch_at [[1; 2]; [3; 4]; [5; 6]; [7; 8]]%nat [9; 10; 11]%nat (Z.to_nat 2) k.
Proof.
  apply (data_batcher_shorter_Y [[1; 2]; [3; 4]; [5; 6]; [7; 8]]%nat [9; 10; 11]%nat 2 2);
    [lia|cbn; lia|vm_compute; lia].
Defined.

(** ** From the loop to the batches *)

(** X15. The output of the dataset loop can always be batched: for a batch
    size [>= 1] the generator, run on the arrays the loop returns, stops
    without raising, its batches put end to end give the arrays back, and
    every batch pairs rows of [2W] ids with as many targets. *)
Theorem dataset_batches (text : list string) (d : gmap string nat) (W : Z)
    (X : list (list nat)) (Y : list nat) (batch_size : Z) (fuel : nat) :
  dataset text d W = Ok (X, Y) →
  1 ≤ batch_size → (length X < fuel)%nat →
  ∃ batches, data_batcher fuel X Y batch_size = (batches, Exhausted) ∧
    concat batches.*1 = X ∧ concat batches.*2 = Y ∧
    Forall (λ b, length b.1 = length b.2 ∧
                 Forall (λ row, length row = (2 * Z.to_nat W)%nat) b.1) batches.
Proof.
  unfold dataset.
  intros (rows & ys & [= -> ->] & Hrows & Hys & Hall & _)%foldM_dataset_step_inv HB Hfuel.
  cbn [app] in *.
  assert (length ys = length rows) as Hsame by congruence.
  destruct (data_batcher_from_spec rows ys batch_size HB Hsame fuel 0)
    as (bs & Hrun & HX & HY & _ & Hbs); [lia|].
  exists bs. split_and!; [done..|].
  apply Forall_forall. intros b [k Hk]%list_elem_of_lookup.
  destruct (Hbs k b Hk) as [_ ->]. cbn [fst snd]. split.
  - rewrite !length_take, !length_drop. lia.
  - apply Forall_forall. intros row Hrow.
    assert (row ∈ rows) as Hin.
    { eapply elem_of_sublist; [done|]. etrans; [apply sublist_take|apply sublist_drop]. }
    rewrite Forall_forall in Hall. by apply Hall.
Qed.

Lemma dataset_batches_witness :
  ∃ batches, data_batcher 4 [[0; 2]; [1; 3]; [2; 4]]%nat [1; 2; 3]%nat 2
             = (batches, Exhausted) ∧
    concat batches.*1 = [[0; 2]; [1; 3]; [2; 4]]%nat ∧
    concat batches.*2 = [1; 2; 3]%nat ∧
    Forall (λ b, length b.1 = length b.2 ∧
                 Forall (λ row, length row = (2 * Z.to_nat 1)%nat) b.1) batches.
Proof.
  apply (dataset_batches abcde abcde_ids 1 _ _ 2 4); [vm_compute; reflexivity|lia|cbn; lia].
Defined.

(** ** The evaluation helpers *)

Section embedding_lemmas.
Context {V S : Type}.
Variable cos : V → V → S.
Variable leb : S → S → bool.
Implicit Types (weight : list V) (d : gmap string nat) (w word : string).
Implicit Types (scores : list (S * string)).

Lemma word2vec_Ok_iff weight d w (vec : V) :
  word2vec weight d w = Ok vec ↔ ∃ i, d !! w = Some i ∧ weight !! i = Some vec.
Proof.
  unfold word2vec, getitem. destruct (d !! w) as [i|]; cbn [mbind result_bind].
  - unfold index. destruct (Z.ltb_spec (Z.of_nat i) 0); [lia|].
    destruct (Z.leb_spec 0 (Z.of_nat i)); [|lia]. rewrite Nat2Z.id.
    destruct (Z.ltb_spec (Z.of_nat i) (Z.of_nat (length weight))) as [Hlt|Hge]; cbn.
    + destruct (weight !! i) as [x|] eqn:Hx.
      * split; [intros [= <-]; by exists i|]. intros (j & [= <-] & Hj). congruence.
      * split; [done|]. intros (j & [= <-] & Hj). congruence.
    + split; [done|]. intros (j & [= <-] & Hj%lookup_lt_Some). lia.
  - split; [done|]. by intros (i & ? & _).
Qed.

Lemma insert_score_Permutation x scores : insert_score leb x scores ≡ₚ x :: scores.
Proof.
  induction scores as [|y scores IH]; cbn; [done|].
  destruct (leb y.1 x.1); [done|]. rewrite IH. apply Permutation_swap.
Qed.

Lemma sorted_scores_Permutation scores : sorted_scores leb scores ≡ₚ scores.
Proof.
  induction scores as [|x scores IH]; cbn; [done|].
  by rewrite insert_score_Permutation, IH.
Qed.

Lemma slice_from_0 {A : Type} (l : list A) (n : Z) :
  slice l 0 n = take (Z.to_nat (clamp (Z.of_nat (length l)) n)) l.
Proof.
  unfold slice. replace (clamp (Z.of_nat (length l)) 0) with 0.
  - by rewrite Z.sub_0_r.
  - unfold clamp. cbn. lia.
Qed.

(** The loop over the vocabulary scores every word but the query word, in
    the order of the vocabulary. *)
Lemma closest_loop weight d word (word_vec : V) scores0 (vocab : list string) :
  (∀ v, v ∈ vocab → v ≠ word → ∃ vec, word2vec weight d v = Ok vec) →
  ∃ scores,
    foldM (closest_step cos weight d word word_vec) scores0 vocab
    = Ok (scores0 ++ scores) ∧
    scores.*2 = filter (λ v, v ≠ word) vocab ∧
    Forall (λ p, ∃ vec, word2vec weight d p.2 = Ok vec ∧ p.1 = cos vec word_vec)
           scores.
Proof.
  revert scores0. induction vocab as [|v vocab IH]; intros scores0 Hvec.
  - exists []. by rewrite app_nil_r.
  - cbn [foldM]. unfold closest_step at 2.
    destruct (decide (v = word)) as [->|Hne]; cbn [mbind result_bind].
    + destruct (IH scores0) as (scores & -> & Hwords & Hall).
      { intros u Hu. apply Hvec. by right. }
      exists scores. split; [done|]. split; [|done].
      rewrite filter_cons_False; [done|]. by intros ?.
    + destruct (Hvec v) as [vec Hv]; [left|done|]. rewrite Hv.
      cbn [mbind result_bind mret result_ret].
      destruct (IH (scores0 ++ [(cos vec word_vec, v)])) as (scores & -> & Hwords & Hall).
      { intros u Hu. apply Hvec. by right. }
      exists ((cos vec word_vec, v) :: scores). rewrite <-app_assoc.
      split; [done|]. split.
      * rewrite filter_cons_True by done. cbn. by rewrite Hwords.
      * constructor; [by exists vec|done].
Qed.
End embedding_lemmas.

(** X16. [word2vec] returns the row of the table at the id of the word; it
    raises [KeyError] exactly for a word without id and [IndexError] exactly
    for an id beyond the rows of the table. *)
Theorem word2vec_spec {V : Type} (weight : list V) (d : gmap string nat)
    (word : string) :
  (∀ vec, word2vec weight d word = Ok vec
          ↔ ∃ i, d !! word = Some i ∧ weight !! i = Some vec) ∧
  (∀ e, word2vec weight d word = Raise e
        ↔ (e = KeyError ∧ d !! word = None)
          ∨ (e = IndexError ∧ ∃ i, d !! word = Some i ∧ (length weight ≤ i)%nat)).
Proof.
  split; [apply word2vec_Ok_iff|]. intros e.
  unfold word2vec, getitem. destruct (d !! word) as [i|]; cbn [mbind result_bind].
  - destruct (index weight (Z.of_nat i)) as [x|e'] eqn:Hx.
    + split; [done|]. intros [[_ ?]|(_ & j & [= <-] & Hj)]; [done|].
      apply index_Ok_elem_of in Hx as Hin. unfold index in Hx.
      destruct (Z.ltb_spec (Z.of_nat i) 0); [lia|].
      destruct (Z.ltb_spec (Z.of_nat i) (Z.of_nat (length weight))); [lia|].
      by rewrite andb_false_r in Hx.
    + pose proof (index_Raise _ _ _ Hx) as ->. split.
      * intros [= <-]. right. split; [done|]. exists i. split; [done|].
        destruct (decide (length weight ≤ i)%nat); [done|].
        destruct (index_in_range weight (Z.of_nat i)) as [y Hy]; [lia|]. congruence.
      * intros [[_ ?]|[-> _]]; done.
  - split.
    + intros [= <-]. by left.
    + intros [[-> _]|(_ & i & ? & _)]; done.
Qed.

(** X17. With the dict built from a duplicate-free vocabulary and a table
    with one row per word, [word2vec] is defined exactly on the words of the
    vocabulary and returns, for the word at position [i], row [i] of the
    table. *)
Theorem word2vec_vocab {V : Type} (weight : list V) (v : list string) :
  NoDup v → length weight = vocab_size v →
  (∀ w, w ∈ v ↔ ∃ vec, word2vec weight (word_to_ix v) w = Ok vec) ∧
  (∀ i w, v !! i = Some w →
          ∃ vec, weight !! i = Some vec ∧ word2vec weight (word_to_ix v) w = Ok vec).
Proof.
  intros Hnd Hrows. unfold vocab_size in Hrows.
  assert (∀ i w, v !! i = Some w →
            ∃ vec, weight !! i = Some vec ∧ word2vec weight (word_to_ix v) w = Ok vec)
    as Hrow.
  { intros i w Hi. destruct (lookup_lt_is_Some_2 weight i) as [vec Hvec].
    { rewrite Hrows. by eapply lookup_lt_Some. }
    exists vec. split; [done|]. apply word2vec_Ok_iff. exists i.
    split; [by apply word_to_ix_lookup|done]. }
  split; [|done]. intros w. split.
  - intros [i Hi]%list_elem_of_lookup. destruct (Hrow i w Hi) as (vec & _ & ?). eauto.
  - intros (vec & (i & Hi & _)%word2vec_Ok_iff).
    apply word_to_ix_lookup in Hi; [|done]. by eapply list_elem_of_lookup_2.
Qed.

Lemma word2vec_vocab_witness :
  (∀ w, w ∈ abcd ↔ ∃ vec, word2vec [10; 20; 30; 40] (word_to_ix abcd) w = Ok vec) ∧
  (∀ i w, abcd !! i = Some w →
          ∃ vec, [10; 20; 30; 40] !! i = Some vec
                 ∧ word2vec [10; 20; 30; 40] (word_to_ix abcd) w = Ok vec).
Proof.
  apply (word2vec_vocab [10; 20; 30; 40] abcd); [|reflexivity].
  apply (bool_decide_unpack _). vm_compute. reflexivity.
Defined.

Section closest.
Context {V S : Type}.
Variable cos : V → V → S.
Variable leb : S → S → bool.
Variables (weight : list V) (d : gmap string nat).
Variables (vocab : list string) (word : string) (n : Z).

(** What the function returns once the query word and every other word of
    the vocabulary have a vector. *)
Lemma closest_n_words_eq (word_vec : V) :
  word2vec weight d word = Ok word_vec →
  (∀ v, v ∈ vocab → v ≠ word → ∃ vec, word2vec weight d v = Ok vec) →
  ∃ scores,
    scores.*2 = filter (λ v, v ≠ word) vocab ∧
    Forall (λ p, ∃ vec, word2vec weight d p.2 = Ok vec ∧ p.1 = cos vec word_vec)
           scores ∧
    closest_n_words cos leb weight d vocab word n
    = zip_star_1 (take (Z.to_nat (clamp (Z.of_nat (length scores)) n))
                       (sorted_scores leb scores)).
Proof.
  intros Hword Hvec. unfold closest_n_words. rewrite Hword.
  cbn [mbind result_bind].
  destruct (closest_loop cos weight d word word_vec [] vocab Hvec)
    as (scores & -> & Hwords & Hall).
  exists scores. split; [done|]. split; [done|]. cbn [mbind result_bind app].
  rewrite slice_from_0.
  by rewrite (Permutation_length (sorted_scores_Permutation leb scores)).
Qed.

Hypothesis leb_total : ∀ a b, leb a b = true ∨ leb b a = true.
Hypothesis leb_trans : ∀ a b c, leb a b = true → leb b c = true → leb a c = true.

Lemma insert_score_Sorted x scores :
  Sorted (λ a b, leb b.1 a.1 = true) scores →
  Sorted (λ a b, leb b.1 a.1 = true) (insert_score leb x scores).
Proof.
  induction 1 as [|y scores Hs IH Hy]; cbn.
  - repeat constructor.
  - destruct (leb y.1 x.1) eqn:Hyx.
    + repeat constructor; done.
    + assert (leb x.1 y.1 = true) as Hxy.
      { destruct (leb_total x.1 y.1) as [?|?]; [done|congruence]. }
      constructor; [done|]. destruct Hy as [|z scores' Hz]; cbn.
      * by constructor.
      * destruct (leb z.1 x.1); by constructor.
Qed.

Lemma sorted_scores_StronglySorted scores :
  StronglySorted (λ a b, leb b.1 a.1 = true) (sorted_scores leb scores).
Proof.
  apply Sorted_StronglySorted.
  - intros a b c Hab Hbc. by eapply leb_trans.
  - induction scores as [|x scores IH]; cbn; [constructor|by apply insert_score_Sorted].
Qed.

Lemma StronglySorted_scores_take_drop (s : list (S * string)) (k : nat) x y :
  StronglySorted (λ a b, leb b.1 a.1 = true) s →
  x ∈ take k s → y ∈ drop k s → leb y.1 x.1 = true.
Proof.
  intros Hs. revert k. induction Hs as [|a s Hs IH Ha]; intros k.
  - rewrite take_nil. by intros ?%elem_of_nil.
  - destruct k as [|k]; cbn; [by intros ?%elem_of_nil|].
    intros [->|Hx]%elem_of_cons Hy.
    + rewrite Forall_forall in Ha. apply Ha.
      eapply elem_of_sublist; [done|apply sublist_drop].
    + by eapply IH.
Qed.
End closest.

(** X18. Once the query word and the other words of a duplicate-free
    vocabulary have a vector, [closest_n_words] never returns the query
    word: with [m] other words it returns [min(n, m)] distinct words of the
    vocabulary for [n >= 0] and [max(0, m + n)] for a negative [n] (the
    slice [[:n]]), and when this number is [0] it raises [IndexError]
    instead of returning an empty tuple. *)
Theorem closest_n_words_result {V S : Type} (cos : V → V → S) (leb : S → S → bool)
    (weight : list V) (d : gmap string nat) (vocab : list string)
    (word : string) (n : Z) :
  NoDup vocab →
  (∃ word_vec, word2vec weight d word = Ok word_vec) →
  (∀ v, v ∈ vocab → v ≠ word → ∃ vec, word2vec weight d v = Ok vec) →
  let m := length (filter (λ v, v ≠ word) vocab) in
  let k := Z.to_nat (clamp (Z.of_nat m) n) in
  (k = 0%nat → closest_n_words cos leb weight d vocab word n = Raise IndexError) ∧
  (k ≠ 0%nat →
   ∃ ws, closest_n_words cos leb weight d vocab word n = Ok ws ∧
         length ws = k ∧ NoDup ws ∧ ∀ w, w ∈ ws → w ∈ vocab ∧ w ≠ word).
Proof.
  intros Hnd [word_vec Hword] Hvec m k.
  destruct (closest_n_words_eq cos leb weight d vocab word n word_vec Hword Hvec)
    as (scores & Hwords & _ & ->).
  assert (length scores = m) as Hlen.
  { subst m. by rewrite <-Hwords, length_fmap. }
  rewrite Hlen. fold k.
  assert ((k ≤ m)%nat) as Hkm by (subst k; unfold clamp; destruct (Z.ltb_spec n 0); lia).
  set (s := sorted_scores leb scores).
  assert (s ≡ₚ scores) as Hperm by apply sorted_scores_Permutation.
  assert (length (take k s) = k) as Htake.
  { rewrite length_take, Hperm. lia. }
  split.
  - intros Hk. rewrite Hk. by rewrite take_0.
  - intros Hk. destruct (take k s) as [|p ps] eqn:Hps; [cbn in Htake; lia|].
    cbn [zip_star_1]. exists (p :: ps).*2. rewrite <-Hps.
    split; [done|]. split; [rewrite length_fmap, length_take, Hperm; lia|].
    assert ((take k s).*2 `sublist_of` s.*2) as Hsub
      by apply fmap_sublist, sublist_take.
    assert (s.*2 ≡ₚ filter (λ v, v ≠ word) vocab) as Hs2 by (by rewrite Hperm, Hwords).
    split.
    + eapply sublist_NoDup; [|done]. rewrite Hs2. by apply NoDup_filter.
    + intros w Hw. eapply elem_of_sublist in Hw; [|done].
      rewrite Hs2 in Hw. apply list_elem_of_filter in Hw. tauto.
Qed.

Lemma closest_n_words_result_witness :
  let m := length (filter (λ v, v ≠ "a"%string) abcd) in
  let k := Z.to_nat (clamp (Z.of_nat m) 2) in
  (k = 0%nat →
   closest_n_words Z.sub Z.leb [10; 20; 30; 40] (word_to_ix abcd) abcd "a" 2
   = Raise IndexError) ∧
  (k ≠ 0%nat →
   ∃ ws, closest_n_words Z.sub Z.leb [10; 20; 30; 40] (word_to_ix abcd) abcd "a" 2 = Ok ws ∧
         length ws = k ∧ NoDup ws ∧ ∀ w, w ∈ ws → w ∈ abcd ∧ w ≠ "a"%string).
Proof.
  apply (closest_n_words_result Z.sub Z.leb [10; 20; 30; 40] (word_to_ix abcd) abcd "a" 2).
  - apply (bool_decide_unpack _). vm_compute. reflexivity.
  - exists 10. vm_compute. reflexivity.
  - intros v Hv _. repeat (apply elem_of_cons in Hv as [->|Hv]);
      [eexists; vm_compute; reflexivity..|by apply elem_of_nil in Hv].
Defined.

(** X19. When the comparison of the scores is total and transitive,
    [closest_n_words] returns the best-scoring words: a word of the
    vocabulary that is neither the query word nor returned never scores
    higher than a returned one. *)
Theorem closest_n_words_best {V S : Type} (cos : V → V → S) (leb : S → S → bool)
    (weight : list V) (d : gmap string nat) (vocab : list string)
    (word : string) (n : Z) (ws : list string) (w u : string) :
  (∀ a b, leb a b = true ∨ leb b a = true) →
  (∀ a b c, leb a b = true → leb b c = true → leb a c = true) →
  closest_n_words cos leb weight d vocab word n = Ok ws →
  w ∈ ws → u ∈ vocab → u ≠ word → u ∉ ws →
  ∃ sw su, score_of cos weight d word w = Some sw ∧
           score_of cos weight d word u = Some su ∧
           leb su sw = true.
Proof.
  intros Htotal Htrans Hres Hw Hu Hne Hnu.
  assert (∃ word_vec, word2vec weight d word = Ok word_vec) as [word_vec Hword].
  { unfold closest_n_words in Hres. destruct (word2vec weight d word); [eauto|done]. }
  assert (∃ scores,
    foldM (closest_step cos weight d word word_vec) [] vocab = Ok scores) as [scores0 Hloop].
  { unfold closest_n_words in Hres. rewrite Hword in Hres. cbn [mbind result_bind] in Hres.
    destruct (foldM _ [] vocab); [eauto|done]. }
  assert (∀ v, v ∈ vocab → v ≠ word → ∃ vec, word2vec weight d v = Ok vec) as Hvec.
  { intros v Hv Hvne.
    destruct (foldM_Ok_elem_of _ _ _ _ v Hloop Hv) as (s1 & s2 & Hstep).
    unfold closest_step in Hstep. rewrite decide_False in Hstep by done.
    destruct (word2vec weight d v); [eauto|done]. }
  destruct (closest_n_words_eq cos leb weight d vocab word n word_vec Hword Hvec)
    as (scores & Hwords & Hall & Heq).
  rewrite Heq in Hres. clear Heq.
  set (k := Z.to_nat (clamp (Z.of_nat (length scores)) n)) in *.
  set (s := sorted_scores leb scores) in *.
  assert (s ≡ₚ scores) as Hperm by apply sorted_scores_Permutation.
  assert (ws = (take k s).*2) as ->.
  { destruct (take k s); [done|]. cbn [zip_star_1] in Hres. by injection Hres. }
  assert (∀ p, p ∈ s → score_of cos weight d word p.2 = Some p.1) as Hscore.
  { intros p Hp. rewrite Hperm in Hp. rewrite Forall_forall in Hall.
    destruct (Hall p Hp) as (vec & Hvecp & ->). unfold score_of.
    by rewrite Hvecp, Hword. }
  apply list_elem_of_fmap in Hw as (pw & -> & Hpw).
  assert (u ∈ s.*2) as (pu & -> & Hpu)%list_elem_of_fmap.
  { rewrite Hperm, Hwords. by apply list_elem_of_filter. }
  exists pw.1, pu.1. split_and!.
  - apply Hscore. eapply elem_of_sublist; [done|apply sublist_take].
  - by apply Hscore.
  - rewrite <-(take_drop k s) in Hpu. apply elem_of_app in Hpu as [Hpu|Hpu].
    { destruct Hnu. by apply list_elem_of_fmap_2. }
    eapply StronglySorted_scores_take_drop; [|done..].
    by apply sorted_scores_StronglySorted.
Qed.

Lemma closest_n_words_best_witness :
  ∃ sw su, score_of Z.sub [10; 20; 30; 40] (word_to_ix abcd) "a" "d" = Some sw ∧
           score_of Z.sub [10; 20; 30; 40] (word_to_ix abcd) "a" "b" = Some su ∧
           Z.leb su sw = true.
Proof.
  apply (closest_n_words_best Z.sub Z.leb [10; 20; 30; 40] (word_to_ix abcd) abcd "a" 2
           ["d"; "c"]%string "d" "b").
  - intros a b. destruct (Z.leb_spec a b); [by left|right]. apply Z.leb_le. lia.
  - intros a b c Hab%Z.leb_le Hbc%Z.leb_le. apply Z.leb_le. lia.
  - vm_compute. reflexivity.
  - left.
  - right. left.
  - discriminate.
  - intros Hb. repeat (apply elem_of_cons in Hb as [Hb|Hb]; [discriminate|]).
    by apply elem_of_nil in Hb.
Defined.

(** ** A negative radius *)

Lemma dataset_step_Ok_centre (text : list string) (d : gmap string nat) (W : Z)
    (XY XY' : list (list nat) * list nat) (i : Z) :
  dataset_step text d W XY i = Ok XY' → ∃ target, index text i = Ok target.
Proof.
  unfold dataset_step.
  destruct (mapM _ (offsets W)) as [context|e]; cbn [mbind result_bind]; [|done].
  destruct (index text i) as [target|e]; cbn [mbind result_bind]; [eauto|done].
Qed.

(** X20. A negative radius is not rejected but never yields a dataset: the
    range of centres then runs past the end of the text and the loop fails,
    with [IndexError] when every word of the text has an id. *)
Theorem dataset_negative_radius (text : list string) (d : gmap string nat) (W : Z) :
  W < 0 →
  (∃ e, dataset text d W = Raise e) ∧
  ((∀ w, w ∈ text → is_Some (d !! w)) → dataset text d W = Raise IndexError).
Proof.
  intros HW.
  assert (∃ e, dataset text d W = Raise e) as [e He].
  { destruct (dataset text d W) as [XY|e] eqn:Hd; [|by exists e]. exfalso.
    unfold dataset in Hd.
    destruct (foldM_Ok_elem_of _ _ _ _ (Z.of_nat (length text)) Hd) as (s1 & s2 & Hstep).
    { unfold range. apply elem_of_seqZ. lia. }
    apply dataset_step_Ok_centre in Hstep as [target Htarget].
    unfold index in Htarget.
    destruct (Z.ltb_spec (Z.of_nat (length text)) 0); [lia|].
    destruct (Z.ltb_spec (Z.of_nat (length text)) (Z.of_nat (length text))); [lia|].
    by rewrite andb_false_r in Htarget. }
  split; [by exists e|]. intros known. rewrite He. f_equal.
  unfold dataset in He. apply foldM_Raise in He as (XY & i & _ & Hstep).
  by eapply dataset_step_Raise.
Qed.

Lemma dataset_negative_radius_witness :
  (∃ e, dataset abcde abcde_ids (-1) = Raise e) ∧
  ((∀ w, w ∈ abcde → is_Some (abcde_ids !! w))
   → dataset abcde abcde_ids (-1) = Raise IndexError).
Proof. apply (dataset_negative_radius abcde abcde_ids (-1)). lia. Defined.
